(** * Timeflake: a shallow embedding of timeflake-rs (src/lib.rs, src/error.rs)

    A [BigUint] is an [N]; a [u64] is an [N] (the bound is stated where the
    code receives one); a [u8] is a [Byte.byte] and a [[u8; 16]] or a
    [Vec<u8>] is a [list Byte.byte].  A Rust [&str] is modelled by its UTF-8
    bytes as a Rocq [string] (a list of 8-bit [ascii]): [s.len()] is the byte
    length, and since every predicate the code applies to [s.chars()] only
    accepts ASCII characters, "all chars satisfy p" coincides with "all bytes
    satisfy p". *)

From Stdlib Require Import PeanoNat NArith ZArith List String Ascii Lia.
From Stdlib Require Import Strings.Byte.
Import ListNotations.

Open Scope N_scope.
Open Scope bool_scope.

(** ** Rust's [Result] *)

Inductive result (A E : Type) : Type :=
| Ok (a : A)
| Err (e : E).
Arguments Ok {A E} a.
Arguments Err {A E} e.

(** ** src/error.rs *)

Inductive Error : Type :=
| InvalidFlake
| ParseError (input reason : string)
| InvalidTimestamp (ts : N)
| InvalidRandom
| UuidError (msg : string)
| ConversionError (msg : string).

Definition Result (A : Type) : Type := result A Error.

(** ** Small helpers: decimal rendering and parsing, string utilities *)

Fixpoint dec_render (fuel : nat) (n : N) (acc : string) : string :=
  match fuel with
  | O => acc
  | S f =>
      let acc' := String (ascii_of_N (48 + n mod 10)) acc in
      if n <? 10 then acc' else dec_render f (n / 10) acc'
  end.

(** [format!("{}", n)] for an unsigned integer. *)
Definition fmt_N (n : N) : string := dec_render (S (N.to_nat (N.size n))) n EmptyString.

(** [BigUint::parse_bytes(s, 10)]: [None] on an empty input or a non-digit. *)
Fixpoint parse_dec_aux (s : string) (acc : N) : option N :=
  match s with
  | EmptyString => Some acc
  | String c rest =>
      let d := N_of_ascii c in
      if (48 <=? d) && (d <=? 57) then parse_dec_aux rest (acc * 10 + (d - 48))
      else None
  end.

Definition parse_dec (s : string) : option N :=
  match s with
  | EmptyString => None
  | _ => parse_dec_aux s 0
  end.

(** [c.to_string().repeat(k)] *)
Fixpoint str_repeat (c : ascii) (k : nat) : string :=
  match k with
  | O => EmptyString
  | S k' => String c (str_repeat c k')
  end.

(** [s.contains(c)] *)
Fixpoint str_contains (s : string) (c : ascii) : bool :=
  match s with
  | EmptyString => false
  | String d rest => Ascii.eqb d c || str_contains rest c
  end.

(** [s.chars().all(p)] *)
Fixpoint str_all (p : ascii -> bool) (s : string) : bool :=
  match s with
  | EmptyString => true
  | String c rest => p c && str_all p rest
  end.

(** [char::is_ascii_alphanumeric] *)
Definition is_ascii_alphanumeric (c : ascii) : bool :=
  let n := N_of_ascii c in
  ((48 <=? n) && (n <=? 57)) || ((65 <=? n) && (n <=? 90)) || ((97 <=? n) && (n <=? 122)).

(** Digits of [n] in base [base], least significant first, without
    leading zeros ([[]] for zero); [fuel] bounds the number of digits. *)
Fixpoint le_digits (base : N) (fuel : nat) (n : N) : list N :=
  match fuel with
  | O => []
  | S f => if n =? 0 then [] else (n mod base) :: le_digits base f (n / base)
  end.

(** The [u8] with value [d mod 256]. *)
Definition byte_of_N (d : N) : Byte.byte :=
  match Byte.of_N (d mod 256) with Some b => b | None => Byte.x00 end.

(** ** num-bigint: [BigUint::to_bytes_be] (minimal big-endian, [[0]] for zero)
    and [BigUint::from_bytes_be] *)

Definition to_bytes_be (n : N) : list Byte.byte :=
  if n =? 0 then [Byte.x00]
  else map byte_of_N (rev (le_digits 256 (N.to_nat (N.size n)) n)).

Definition from_bytes_be (bs : list Byte.byte) : N :=
  fold_left (fun r b => r * 256 + Byte.to_N b) bs 0.

(** ** Rust core: [u128::to_be_bytes], [u128::from_be_bytes], [to_u64] *)

Fixpoint le_fixed (k : nat) (v : N) : list N :=
  match k with
  | O => []
  | S k' => (v mod 256) :: le_fixed k' (v / 256)
  end.

Definition u128_to_be_bytes (v : N) : list Byte.byte := map byte_of_N (rev (le_fixed 16 v)).

Definition u128_from_be_bytes (bs : list Byte.byte) : N :=
  fold_left (fun r b => r * 256 + Byte.to_N b) bs 0.

(** [ToPrimitive::to_u64] on a [BigUint]. *)
Definition to_u64 (n : N) : option N := if n <? 2 ^ 64 then Some n else None.

(** [Ord for [u8]] (so for [[u8; 16]]): lexicographic, byte by byte. *)
Fixpoint slice_cmp (a b : list Byte.byte) : comparison :=
  match a, b with
  | [], [] => Eq
  | [], _ :: _ => Lt
  | _ :: _, [] => Gt
  | x :: a', y :: b' =>
      match N.compare (Byte.to_N x) (Byte.to_N y) with
      | Eq => slice_cmp a' b'
      | c => c
      end
  end.

(** [i128 as u64] (or [u128 as u64]): the low 64 bits. *)
Definition as_u64 (v : Z) : N := Z.to_N (Z.modulo v (2 ^ 64)).

(** [Result::unwrap]: [None] is the panic. *)
Definition unwrap {A E : Type} (r : result A E) : option A :=
  match r with Ok a => Some a | Err _ => None end.

(** ** The base62 crate (standard alphabet) *)

Definition BASE62 : string :=
  "0123456789ABCDEFGHIJKLMNOPQRSTUVWXYZabcdefghijklmnopqrstuvwxyz".

Definition base62_char (d : N) : ascii :=
  match String.get (N.to_nat d) BASE62 with Some c => c | None => "0"%char end.

(** [base62::encode(u128)]: minimal digits, "0" for zero. *)
Definition base62_encode (n : N) : string :=
  if n =? 0 then "0"%string
  else string_of_list_ascii (map base62_char (rev (le_digits 62 (N.to_nat (N.size n)) n))).

Inductive DecodeError : Type :=
| ArithmeticOverflow
| EmptyInput
| InvalidBase62Byte (c : ascii) (index : nat).

(** Value of one byte in the standard alphabet. *)
Definition base62_digit (c : ascii) : option N :=
  let n := N_of_ascii c in
  if (48 <=? n) && (n <=? 57) then Some (n - 48)
  else if (65 <=? n) && (n <=? 90) then Some (n - 55)
  else if (97 <=? n) && (n <=? 122) then Some (n - 61)
  else None.

Fixpoint base62_decode_aux (s : string) (idx : nat) (acc : N) : result N DecodeError :=
  match s with
  | EmptyString => Ok acc
  | String c rest =>
      match base62_digit c with
      | Some d => base62_decode_aux rest (S idx) (acc * 62 + d)
      | None => Err (InvalidBase62Byte c idx)
      end
  end.

(** [base62::decode -> Result<u128, DecodeError>]: fails on an empty input,
    on a byte outside the alphabet and on a value that does not fit in a
    [u128] (checked arithmetic); otherwise returns the base-62 value.  Which
    variant is reported when several apply is immaterial here: the only
    caller, [from_base62], maps every [Err] to the same error. *)
Definition base62_decode (s : string) : result N DecodeError :=
  match s with
  | EmptyString => Err EmptyInput
  | _ =>
      match base62_decode_aux s 0 0 with
      | Ok v => if v <? 2 ^ 128 then Ok v else Err ArithmeticOverflow
      | Err e => Err e
      end
  end.

(** ** The hex crate *)

Definition HEX : string := "0123456789abcdef".

Definition hex_char (d : N) : ascii :=
  match String.get (N.to_nat d) HEX with Some c => c | None => "0"%char end.

(** [hex::encode]: two lowercase digits per byte, high nibble first. *)
Fixpoint hex_encode (bs : list Byte.byte) : string :=
  match bs with
  | [] => EmptyString
  | b :: rest =>
      String (hex_char (N.shiftr (Byte.to_N b) 4))
        (String (hex_char (N.land (Byte.to_N b) 15)) (hex_encode rest))
  end.

Inductive FromHexError : Type :=
| InvalidHexCharacter (c : ascii) (index : nat)
| OddLength
| InvalidStringLength.

Definition fmt_FromHexError (e : FromHexError) : string :=
  match e with
  | InvalidHexCharacter c index =>
      ("Invalid character '" ++ String c ("' at position " ++ fmt_N (N.of_nat index)))%string
  | OddLength => "Odd number of digits"
  | InvalidStringLength => "Invalid string length"
  end.

(** [hex::val] *)
Definition hex_val (c : ascii) (idx : nat) : result N FromHexError :=
  let n := N_of_ascii c in
  if (65 <=? n) && (n <=? 70) then Ok (n - 65 + 10)
  else if (97 <=? n) && (n <=? 102) then Ok (n - 97 + 10)
  else if (48 <=? n) && (n <=? 57) then Ok (n - 48)
  else Err (InvalidHexCharacter c idx).

Fixpoint hex_decode_pairs (s : string) (i : nat) : result (list Byte.byte) FromHexError :=
  match s with
  | String a (String b rest) =>
      match hex_val a (2 * i) with
      | Err e => Err e
      | Ok hi =>
          match hex_val b (2 * i + 1) with
          | Err e => Err e
          | Ok lo =>
              match hex_decode_pairs rest (S i) with
              | Err e => Err e
              | Ok bs => Ok (byte_of_N (N.lor (N.shiftl hi 4) lo) :: bs)
              end
          end
      end
  | _ => Ok []
  end.

(** [hex::decode] *)
Definition hex_decode (s : string) : result (list Byte.byte) FromHexError :=
  if Nat.odd (String.length s) then Err OddLength else hex_decode_pairs s 0.

(** ** src/lib.rs *)

Definition MAX_TIMESTAMP : N := 281474976710655.
Definition MAX_RANDOM : string := "1208925819614629174706175".
Definition MAX_TIMEFLAKE : string := "340282366920938463463374607431768211455".

(** [BigUint::parse_bytes(MAX_RANDOM.as_bytes(), 10).unwrap()] *)
Definition max_random_biguint : N :=
  match parse_dec MAX_RANDOM with Some v => v | None => 0 end.

(** [BigUint::parse_bytes(MAX_TIMEFLAKE.as_bytes(), 10).unwrap()] *)
Definition max_timeflake_biguint : N :=
  match parse_dec MAX_TIMEFLAKE with Some v => v | None => 0 end.

Record Timeflake : Type := mkTimeflake {
  bytes : list Byte.byte;
  int_value : N
}.

(** [bytes_to_biguint]: [result = (result << 8) | BigUint::from(byte)]. *)
Definition bytes_to_biguint (bs : list Byte.byte) : N :=
  fold_left (fun result b => N.lor (N.shiftl result 8) (Byte.to_N b)) bs 0.

(** [biguint_to_bytes]: [result[offset..].copy_from_slice(&bytes)] on a
    zeroed [[u8; 16]]. *)
Definition biguint_to_bytes (n : N) : Result (list Byte.byte) :=
  let bs := to_bytes_be n in
  if Nat.ltb 16 (List.length bs) then
    Err (ConversionError ("BigUint is too large to fit in 16 bytes (got "
                          ++ fmt_N (N.of_nat (List.length bs)) ++ " bytes)")%string)
  else
    let offset := (16 - List.length bs)%nat in
    Ok (repeat Byte.x00 offset ++ bs).

Definition from_bytes (bs : list Byte.byte) : Result Timeflake :=
  let int_value := bytes_to_biguint bs in
  if max_timeflake_biguint <? int_value then Err InvalidFlake
  else Ok (mkTimeflake bs int_value).

Definition from_components (timestamp : N) (random : N) : Result Timeflake :=
  if MAX_TIMESTAMP <? timestamp then Err (InvalidTimestamp timestamp)
  else if max_random_biguint <? random then Err InvalidRandom
  else
    let ts_biguint := timestamp in
    let int_value := N.lor (N.shiftl ts_biguint 80) random in
    match biguint_to_bytes int_value with
    | Err e => Err e
    | Ok bs => Ok (mkTimeflake bs int_value)
    end.

Definition from_base62 (s : string) : Result Timeflake :=
  match base62_decode s with
  | Err _ => Err (ParseError s "Invalid base62 encoding")
  | Ok decoded =>
      let int_value := from_bytes_be (u128_to_be_bytes decoded) in
      if max_timeflake_biguint <? int_value then Err InvalidFlake
      else
        match biguint_to_bytes int_value with
        | Err e => Err e
        | Ok bs => Ok (mkTimeflake bs int_value)
        end
  end.

Definition from_bigint (value : N) : Result Timeflake :=
  match biguint_to_bytes value with
  | Err e => Err e
  | Ok bs => from_bytes bs
  end.

Definition to_base62 (t : Timeflake) : string :=
  let v := u128_from_be_bytes (bytes t) in
  let encoded := base62_encode v in
  let padding := 22%nat in
  if Nat.ltb (String.length encoded) padding then
    (str_repeat "0"%char (padding - String.length encoded) ++ encoded)%string
  else encoded.

(** [timestamp]: [None] is the panic of [to_u64().unwrap()]. *)
Definition timestamp (t : Timeflake) : option N :=
  let shifted := N.shiftr (int_value t) 80 in
  to_u64 shifted.

Definition random (t : Timeflake) : N := N.land (int_value t) max_random_biguint.

Definition to_hex (t : Timeflake) : string := hex_encode (bytes t).

Definition to_bytes (t : Timeflake) : list Byte.byte := bytes t.

Definition to_bigint (t : Timeflake) : N := int_value t.

(** [impl FromStr for Timeflake] *)
Definition from_str (s : string) : Result Timeflake :=
  if Nat.eqb (String.length s) 32 && str_all (str_contains HEX) s then
    match hex_decode s with
    | Err e => Err (ParseError s ("Invalid hex: " ++ fmt_FromHexError e)%string)
    | Ok bs =>
        if negb (Nat.eqb (List.length bs) 16) then
          Err (ParseError s ("Expected 16 bytes, got " ++ fmt_N (N.of_nat (List.length bs)))%string)
        else from_bytes bs
    end
  else if Nat.leb (String.length s) 22 && str_all is_ascii_alphanumeric s then
    from_base62 s
  else
    Err (ParseError s
           "String must be either a 32-character hex string or a base62 string").

(** [PartialEq] and [Ord]: both on [int_value]. *)
Definition eq (a b : Timeflake) : bool := int_value a =? int_value b.

Definition cmp (a b : Timeflake) : comparison := N.compare (int_value a) (int_value b).

(** [impl Hash for Timeflake]: the data fed to the hasher is [self.bytes]. *)
Definition hash_data (t : Timeflake) : list Byte.byte := bytes t.

(** [impl Display for Timeflake]: [write!(f, "{}", self.to_base62())]. *)
Definition fmt_Timeflake (t : Timeflake) : string := to_base62 t.

(** [new_random]: [clock] is [UtcTime::now()] in milliseconds ([None] when it
    fails, and the [unwrap] panics), [random_bytes] the 10 bytes [rng.fill]
    writes; [None] is a panic. *)
Definition new_random (clock : option Z) (random_bytes : list Byte.byte) : option Timeflake :=
  match clock with
  | None => None
  | Some millis =>
      let now := as_u64 millis in
      let random := from_bytes_be random_bytes in
      unwrap (from_components now random)
  end.

Definition from_bytes_checked (bs : list Byte.byte) : option Timeflake :=
  unwrap (from_bytes bs).

Definition from_components_checked (timestamp random : N) : option Timeflake :=
  unwrap (from_components timestamp random).

Definition from_base62_checked (s : string) : option Timeflake := unwrap (from_base62 s).

Definition from_bigint_checked (value : N) : option Timeflake := unwrap (from_bigint value).

(** A [uuid::Uuid] as its 16 bytes ([Uuid::from_bytes], [Uuid::into_bytes]). *)
Record Uuid : Type := mkUuid { uuid_bytes : list Byte.byte }.

Definition from_uuid (uuid : Uuid) : Result Timeflake := from_bytes (uuid_bytes uuid).

Definition from_uuid_checked (uuid : Uuid) : option Timeflake := unwrap (from_uuid uuid).

Definition to_uuid (t : Timeflake) : Uuid := mkUuid (bytes t).

(** The values a client can hold: the successful results of the public
    constructors ([new_random] goes through [from_components] with a [u64]
    timestamp, [from_uuid] through [from_bytes] with 16 bytes, the
    [_checked] variants unwrap these). *)
Inductive constructed : Timeflake -> Prop :=
| constructed_from_bytes bs t :
    List.length bs = 16%nat -> from_bytes bs = Ok t -> constructed t
| constructed_from_components ts r t :
    ts < 2 ^ 64 -> from_components ts r = Ok t -> constructed t
| constructed_from_base62 s t : from_base62 s = Ok t -> constructed t
| constructed_from_bigint v t : from_bigint v = Ok t -> constructed t
| constructed_from_str s t : from_str s = Ok t -> constructed t.

(** ** Specification helpers *)

(** Value of a little-endian digit list. *)
Fixpoint le_eval (base : N) (l : list N) : N :=
  match l with
  | [] => 0
  | d :: ds => d + base * le_eval base ds
  end.

(** Value of a big-endian digit list. *)
Definition be_eval (base : N) (ds : list N) : N := fold_left (fun r d => r * base + d) ds 0.

(** Lexicographic order of digit lists. *)
Fixpoint digits_cmp (a b : list N) : comparison :=
  match a, b with
  | [], [] => Eq
  | [], _ :: _ => Lt
  | _ :: _, [] => Gt
  | x :: a', y :: b' =>
      match N.compare x y with
      | Eq => digits_cmp a' b'
      | c => c
      end
  end.

(** The representation invariant of the struct: [bytes] is what
    [biguint_to_bytes] makes of [int_value]. *)
Definition wf (t : Timeflake) : Prop := biguint_to_bytes (int_value t) = Ok (bytes t).

(** The sample value of the test suite. *)
Definition sample_bytes : list Byte.byte :=
  [Byte.x01; Byte.x6f; Byte.xa9; Byte.x36; Byte.xbf; Byte.xf0; Byte.x99; Byte.x7a;
   Byte.x0a; Byte.x3c; Byte.x42; Byte.x85; Byte.x48; Byte.xfe; Byte.xe8; Byte.xc9].

(** * Proofs *)

(** Turn every [x / c] and [x mod c] by a numeral into its defining
    equations, for [lia] and [nia]. *)
Ltac N_divmod :=
  repeat match goal with
  | |- context [?x / ?c] => N_divmod_gen x c
  | |- context [?x mod ?c] => N_divmod_gen x c
  | H : context [?x / ?c] |- _ => N_divmod_gen x c
  | H : context [?x mod ?c] |- _ => N_divmod_gen x c
  end
with N_divmod_gen x c :=
  let Hc := fresh in
  assert (Hc : c <> 0) by (apply N.neq_0_lt_0; apply N.ltb_lt; reflexivity);
  pose proof (N.div_mod x c Hc); pose proof (N.mod_lt x c Hc);
  let q := fresh "q" in
  let r := fresh "r" in
  set (q := x / c) in *; set (r := x mod c) in *; clearbody q r; clear Hc.

(** ** Constants *)

Lemma max_random_biguint_value : max_random_biguint = 2 ^ 80 - 1.
Proof. vm_compute. reflexivity. Qed.

Lemma max_timeflake_biguint_value : max_timeflake_biguint = 2 ^ 128 - 1.
Proof. vm_compute. reflexivity. Qed.

Lemma MAX_TIMESTAMP_value : MAX_TIMESTAMP = 2 ^ 48 - 1.
Proof. vm_compute. reflexivity. Qed.

(** ** Bit operations *)

Lemma lor_shiftl_low (r x : N) (k : N) :
  x < 2 ^ k -> N.lor (N.shiftl r k) x = r * 2 ^ k + x.
Proof.
  intros Hx.
  assert (Hdisj : N.land (N.shiftl r k) x = 0).
  { apply N.bits_inj_0. intros i. rewrite N.land_spec.
    destruct (N.lt_ge_cases i k) as [Hi | Hi].
    - rewrite N.shiftl_spec_low by exact Hi. reflexivity.
    - rewrite <- (N.mod_small x (2 ^ k)) by exact Hx.
      rewrite N.mod_pow2_bits_high by exact Hi. apply Bool.andb_false_r. }
  rewrite <- N.lxor_lor, <- N.add_nocarry_lxor by exact Hdisj.
  rewrite N.shiftl_mul_pow2. reflexivity.
Qed.

Lemma land_low_mask (v : N) (k : N) : N.land v (2 ^ k - 1) = v mod 2 ^ k.
Proof.
  rewrite <- N.land_ones. f_equal. rewrite N.ones_equiv. lia.
Qed.

(** ** Bytes *)

Lemma to_N_byte_of_N (d : N) : Byte.to_N (byte_of_N d) = d mod 256.
Proof.
  unfold byte_of_N.
  destruct (Byte.of_N (d mod 256)) eqn:E.
  - apply Byte.to_of_N in E. exact E.
  - apply Byte.of_N_None_iff in E. N_divmod. lia.
Qed.

Lemma byte_of_N_to_N (b : Byte.byte) : byte_of_N (Byte.to_N b) = b.
Proof.
  unfold byte_of_N. rewrite N.mod_small.
  - rewrite Byte.of_to_N. reflexivity.
  - pose proof (Byte.to_N_bounded b). lia.
Qed.

Lemma to_N_inj (a b : Byte.byte) : Byte.to_N a = Byte.to_N b -> a = b.
Proof.
  intros H. rewrite <- (byte_of_N_to_N a), <- (byte_of_N_to_N b), H. reflexivity.
Qed.

(** ** Digit lists *)

Lemma le_eval_app (base : N) (l1 l2 : list N) :
  le_eval base (l1 ++ l2) =
  le_eval base l1 + base ^ N.of_nat (List.length l1) * le_eval base l2.
Proof.
  induction l1 as [|d l1 IH]; cbn [app le_eval List.length].
  - change (N.of_nat 0) with 0. rewrite N.pow_0_r. lia.
  - rewrite IH, Nat2N.inj_succ, N.pow_succ_r'. ring.
Qed.

Lemma fold_digits (base : N) (ds : list N) (acc : N) :
  fold_left (fun r d => r * base + d) ds acc =
  acc * base ^ N.of_nat (List.length ds) + le_eval base (rev ds).
Proof.
  revert acc. induction ds as [|d ds IH]; intros acc;
    cbn [fold_left rev le_eval List.length].
  - change (N.of_nat 0) with 0. rewrite N.pow_0_r. lia.
  - rewrite IH, le_eval_app, length_rev, Nat2N.inj_succ, N.pow_succ_r'.
    cbn [le_eval]. ring.
Qed.

Lemma fold_bytes (bs : list Byte.byte) (acc : N) :
  fold_left (fun r b => r * 256 + Byte.to_N b) bs acc =
  fold_left (fun r d => r * 256 + d) (map Byte.to_N bs) acc.
Proof.
  revert acc. induction bs as [|b bs IH]; intros acc; simpl; [reflexivity | apply IH].
Qed.

Lemma from_bytes_be_eval (bs : list Byte.byte) :
  from_bytes_be bs = le_eval 256 (rev (map Byte.to_N bs)).
Proof.
  unfold from_bytes_be. rewrite fold_bytes, fold_digits. lia.
Qed.

Lemma bytes_to_biguint_eq (bs : list Byte.byte) : bytes_to_biguint bs = from_bytes_be bs.
Proof.
  unfold bytes_to_biguint, from_bytes_be. generalize 0 as acc.
  induction bs as [|b bs IH]; intros acc; simpl; [reflexivity|].
  rewrite lor_shiftl_low.
  - apply IH.
  - pose proof (Byte.to_N_bounded b). simpl. lia.
Qed.

Lemma div_lt_iff (n b q : N) : 0 < b -> (n / b < q <-> n < b * q).
Proof.
  intros Hb. pose proof (N.div_mod n b ltac:(lia)). pose proof (N.mod_lt n b ltac:(lia)).
  split; intros H'; [nia|]. apply N.Div0.div_lt_upper_bound; lia.
Qed.

Lemma le_digits_bound (base : N) (fuel : nat) (n : N) :
  0 < base -> Forall (fun d => d < base) (le_digits base fuel n).
Proof.
  intros Hb. revert n. induction fuel as [|f IH]; intros n; cbn [le_digits]; [constructor|].
  destruct (n =? 0); constructor; [apply N.mod_lt; lia | apply IH].
Qed.

Lemma le_digits_eval (base : N) (fuel : nat) (n : N) :
  1 < base -> n < base ^ N.of_nat fuel -> le_eval base (le_digits base fuel n) = n.
Proof.
  intros Hb. revert n. induction fuel as [|f IH]; intros n Hn; cbn [le_digits].
  - change (N.of_nat 0) with 0 in Hn. rewrite N.pow_0_r in Hn. cbn [le_eval]. lia.
  - destruct (N.eqb_spec n 0) as [Hz | Hz]; cbn [le_eval]; [lia|].
    rewrite Nat2N.inj_succ, N.pow_succ_r' in Hn.
    rewrite IH by (apply div_lt_iff; lia).
    pose proof (N.div_mod n base ltac:(lia)). lia.
Qed.

Lemma le_digits_length (base : N) (fuel : nat) (n : N) :
  1 < base -> n < base ^ N.of_nat fuel ->
  forall k, (List.length (le_digits base fuel n) <= k)%nat <-> n < base ^ N.of_nat k.
Proof.
  intros Hb. revert n. induction fuel as [|f IH]; intros n Hn k; cbn [le_digits].
  - change (N.of_nat 0) with 0 in Hn. rewrite N.pow_0_r in Hn.
    assert (0 < base ^ N.of_nat k) by (apply N.neq_0_lt_0, N.pow_nonzero; lia).
    cbn [List.length]. split; intros; lia.
  - destruct (N.eqb_spec n 0) as [Hz | Hz].
    + assert (0 < base ^ N.of_nat k) by (apply N.neq_0_lt_0, N.pow_nonzero; lia).
      cbn [List.length]. split; intros; lia.
    + rewrite Nat2N.inj_succ, N.pow_succ_r' in Hn. cbn [List.length].
      destruct k as [|k].
      * change (N.of_nat 0) with 0. rewrite N.pow_0_r. split; intros; lia.
      * rewrite Nat2N.inj_succ, N.pow_succ_r', <- div_lt_iff by lia.
        rewrite <- IH by (apply div_lt_iff; lia). lia.
Qed.

Lemma size_fuel (base n : N) : 2 <= base -> n < base ^ N.of_nat (N.to_nat (N.size n)).
Proof.
  intros Hb. rewrite N2Nat.id.
  eapply N.lt_le_trans; [apply N.size_gt | apply N.pow_le_mono_l; exact Hb].
Qed.

Lemma le_eval_inj (base : N) (ds1 ds2 : list N) :
  0 < base ->
  Forall (fun d => d < base) ds1 -> Forall (fun d => d < base) ds2 ->
  List.length ds1 = List.length ds2 -> le_eval base ds1 = le_eval base ds2 -> ds1 = ds2.
Proof.
  intros Hb. revert ds2. induction ds1 as [|d1 ds1 IH]; intros [|d2 ds2] H1 H2 Hl He;
    try discriminate; [reflexivity|].
  inversion H1; inversion H2; subst. cbn [le_eval] in He.
  assert (Hd : d1 = d2).
  { rewrite (N.mod_unique (d1 + base * le_eval base ds1) base (le_eval base ds1) d1)
      by (auto; lia).
    rewrite (N.mod_unique (d2 + base * le_eval base ds2) base (le_eval base ds2) d2)
      by (auto; lia).
    rewrite He. reflexivity. }
  subst d2. f_equal. apply IH; auto. nia.
Qed.

Lemma map_to_N_inj (l1 l2 : list Byte.byte) : map Byte.to_N l1 = map Byte.to_N l2 -> l1 = l2.
Proof.
  revert l2. induction l1 as [|a l1 IH]; intros [|b l2] H; try discriminate; [reflexivity|].
  injection H as Hab Hl. f_equal; [apply to_N_inj, Hab | apply IH, Hl].
Qed.

Lemma to_N_bytes_bound (bs : list Byte.byte) : Forall (fun d => d < 256) (map Byte.to_N bs).
Proof.
  apply Forall_forall. intros d Hd. apply in_map_iff in Hd. destruct Hd as [b [<- _]].
  pose proof (Byte.to_N_bounded b). lia.
Qed.

Lemma from_bytes_be_inj (l1 l2 : list Byte.byte) :
  List.length l1 = List.length l2 -> from_bytes_be l1 = from_bytes_be l2 -> l1 = l2.
Proof.
  intros Hl He. rewrite !from_bytes_be_eval in He.
  apply map_to_N_inj. rewrite <- (rev_involutive (map Byte.to_N l1)),
    <- (rev_involutive (map Byte.to_N l2)). f_equal.
  apply (le_eval_inj 256).
  - lia.
  - apply Forall_rev, to_N_bytes_bound.
  - apply Forall_rev, to_N_bytes_bound.
  - rewrite !length_rev, !length_map. exact Hl.
  - exact He.
Qed.

Lemma le_eval_bound (base : N) (ds : list N) :
  Forall (fun d => d < base) ds -> le_eval base ds < base ^ N.of_nat (List.length ds).
Proof.
  induction 1 as [|d ds Hd Hds IH]; cbn [le_eval List.length].
  - change (N.of_nat 0) with 0. rewrite N.pow_0_r. lia.
  - rewrite Nat2N.inj_succ, N.pow_succ_r'. nia.
Qed.

Lemma from_bytes_be_bound (bs : list Byte.byte) :
  from_bytes_be bs < 256 ^ N.of_nat (List.length bs).
Proof.
  rewrite from_bytes_be_eval.
  rewrite <- (length_map Byte.to_N bs), <- length_rev.
  apply le_eval_bound, Forall_rev, to_N_bytes_bound.
Qed.

(** ** [to_bytes_be] and [biguint_to_bytes] *)

Lemma to_N_map_byte_of_N (ds : list N) :
  Forall (fun d => d < 256) ds -> map Byte.to_N (map byte_of_N ds) = ds.
Proof.
  induction 1 as [|d ds Hd Hds IH]; cbn [map]; [reflexivity|].
  rewrite to_N_byte_of_N, N.mod_small by exact Hd. f_equal. exact IH.
Qed.

Lemma to_bytes_be_value (n : N) : from_bytes_be (to_bytes_be n) = n.
Proof.
  unfold to_bytes_be. destruct (N.eqb_spec n 0) as [-> | Hn]; [reflexivity|].
  rewrite from_bytes_be_eval, to_N_map_byte_of_N, rev_involutive.
  - apply le_digits_eval; [lia | apply size_fuel; lia].
  - apply Forall_rev, le_digits_bound. lia.
Qed.

Lemma to_bytes_be_length (n : N) : (List.length (to_bytes_be n) <= 16)%nat <-> n < 2 ^ 128.
Proof.
  unfold to_bytes_be. destruct (N.eqb_spec n 0) as [-> | Hn].
  - cbn [List.length]. split; intros; lia.
  - rewrite length_map, length_rev, le_digits_length.
    + change (2 ^ 128) with (256 ^ N.of_nat 16). reflexivity.
    + lia.
    + apply size_fuel. lia.
Qed.

Lemma from_bytes_be_zeros (k : nat) (l : list Byte.byte) :
  from_bytes_be (repeat Byte.x00 k ++ l) = from_bytes_be l.
Proof.
  unfold from_bytes_be. rewrite fold_left_app. f_equal.
  induction k as [|k IH]; [reflexivity|]. exact IH.
Qed.

Lemma biguint_to_bytes_ok (n : N) :
  n < 2 ^ 128 ->
  exists bs, biguint_to_bytes n = Ok bs /\ List.length bs = 16%nat /\ from_bytes_be bs = n.
Proof.
  intros Hn. apply to_bytes_be_length in Hn. unfold biguint_to_bytes.
  destruct (Nat.ltb_spec 16 (List.length (to_bytes_be n))); [lia|].
  eexists. split; [reflexivity|]. split.
  - rewrite length_app, repeat_length. lia.
  - rewrite from_bytes_be_zeros. apply to_bytes_be_value.
Qed.

Lemma biguint_to_bytes_inv (n : N) (bs : list Byte.byte) :
  biguint_to_bytes n = Ok bs ->
  n < 2 ^ 128 /\ List.length bs = 16%nat /\ from_bytes_be bs = n.
Proof.
  unfold biguint_to_bytes.
  destruct (Nat.ltb_spec 16 (List.length (to_bytes_be n))); [discriminate|].
  intros E.
  assert (Hbs : bs = repeat Byte.x00 (16 - List.length (to_bytes_be n)) ++ to_bytes_be n)
    by congruence.
  subst bs. split; [apply to_bytes_be_length; lia|]. split.
  - rewrite length_app, repeat_length. lia.
  - rewrite from_bytes_be_zeros. apply to_bytes_be_value.
Qed.

Lemma from_bytes_be_16 (bs : list Byte.byte) :
  List.length bs = 16%nat -> from_bytes_be bs < 2 ^ 128.
Proof.
  intros Hl. pose proof (from_bytes_be_bound bs) as Hb. rewrite Hl in Hb. exact Hb.
Qed.

Lemma biguint_to_bytes_from_bytes_be (bs : list Byte.byte) :
  List.length bs = 16%nat -> biguint_to_bytes (from_bytes_be bs) = Ok bs.
Proof.
  intros Hl.
  destruct (biguint_to_bytes_ok (from_bytes_be bs)) as [bs' [E [Hl' Hv]]];
    [apply from_bytes_be_16, Hl|].
  rewrite E. f_equal. apply from_bytes_be_inj; congruence.
Qed.

Lemma from_bytes_16 (bs : list Byte.byte) :
  List.length bs = 16%nat -> from_bytes bs = Ok (mkTimeflake bs (from_bytes_be bs)).
Proof.
  intros Hl. unfold from_bytes. rewrite bytes_to_biguint_eq, max_timeflake_biguint_value.
  pose proof (from_bytes_be_16 bs Hl).
  destruct (N.ltb_spec (2 ^ 128 - 1) (from_bytes_be bs)); [lia | reflexivity].
Qed.

(** ** The representation invariant *)

Lemma wf_props (t : Timeflake) :
  wf t ->
  int_value t < 2 ^ 128 /\ List.length (bytes t) = 16%nat /\
  from_bytes_be (bytes t) = int_value t.
Proof. apply biguint_to_bytes_inv. Qed.

Lemma from_bytes_wf (bs : list Byte.byte) (t : Timeflake) :
  List.length bs = 16%nat -> from_bytes bs = Ok t -> wf t.
Proof.
  intros Hl E. rewrite from_bytes_16 in E by exact Hl. injection E as <-.
  unfold wf. cbn [int_value bytes]. apply biguint_to_bytes_from_bytes_be, Hl.
Qed.

Lemma from_components_wf (ts r : N) (t : Timeflake) : from_components ts r = Ok t -> wf t.
Proof.
  unfold from_components.
  destruct (MAX_TIMESTAMP <? ts); [discriminate|].
  destruct (max_random_biguint <? r); [discriminate|].
  destruct (biguint_to_bytes _) eqn:E; [|discriminate].
  intros [= <-]. exact E.
Qed.

Lemma from_base62_wf (s : string) (t : Timeflake) : from_base62 s = Ok t -> wf t.
Proof.
  unfold from_base62.
  destruct (base62_decode s); [|discriminate].
  destruct (max_timeflake_biguint <? _); [discriminate|].
  destruct (biguint_to_bytes _) eqn:E; [|discriminate].
  intros [= <-]. exact E.
Qed.

Lemma from_bigint_wf (v : N) (t : Timeflake) : from_bigint v = Ok t -> wf t.
Proof.
  unfold from_bigint. destruct (biguint_to_bytes v) eqn:E; [|discriminate].
  apply biguint_to_bytes_inv in E. apply from_bytes_wf. tauto.
Qed.

Lemma from_str_wf (s : string) (t : Timeflake) : from_str s = Ok t -> wf t.
Proof.
  unfold from_str.
  destruct (Nat.eqb (String.length s) 32 && str_all (str_contains HEX) s).
  - destruct (hex_decode s) as [bs|]; [|discriminate].
    destruct (Nat.eqb_spec (List.length bs) 16); [|discriminate].
    apply from_bytes_wf. assumption.
  - destruct (_ && _); [apply from_base62_wf | discriminate].
Qed.

Lemma constructed_wf (t : Timeflake) : constructed t -> wf t.
Proof.
  destruct 1.
  - eapply from_bytes_wf; eassumption.
  - eapply from_components_wf; eassumption.
  - eapply from_base62_wf; eassumption.
  - eapply from_bigint_wf; eassumption.
  - eapply from_str_wf; eassumption.
Qed.

(** ** Accessors on well-formed values *)

Lemma timestamp_wf (t : Timeflake) :
  wf t -> timestamp t = Some (int_value t / 2 ^ 80).
Proof.
  intros H. apply wf_props in H as [Hlt _].
  unfold timestamp, to_u64. rewrite N.shiftr_div_pow2.
  destruct (N.ltb_spec (int_value t / 2 ^ 80) (2 ^ 64)); [reflexivity|].
  exfalso. N_divmod. nia.
Qed.

Lemma random_mod (t : Timeflake) : random t = int_value t mod 2 ^ 80.
Proof. unfold random. rewrite max_random_biguint_value. apply land_low_mask. Qed.

Lemma from_components_in_range (ts r : N) :
  ts <= MAX_TIMESTAMP -> r <= max_random_biguint ->
  exists t, from_components ts r = Ok t /\ int_value t = ts * 2 ^ 80 + r.
Proof.
  intros Hts Hr. unfold from_components.
  destruct (N.ltb_spec MAX_TIMESTAMP ts); [lia|].
  destruct (N.ltb_spec max_random_biguint r); [lia|].
  rewrite MAX_TIMESTAMP_value in Hts. rewrite max_random_biguint_value in Hr.
  rewrite lor_shiftl_low by lia.
  destruct (biguint_to_bytes_ok (ts * 2 ^ 80 + r)) as [bs [E _]]; [nia|].
  rewrite E. eexists. split; reflexivity.
Qed.

(** ** String utilities *)

Lemma str_length_app (s1 s2 : string) :
  String.length (s1 ++ s2) = (String.length s1 + String.length s2)%nat.
Proof. induction s1 as [|c s1 IH]; cbn; [reflexivity | rewrite IH; reflexivity]. Qed.

Lemma str_length_of_list (l : list ascii) :
  String.length (string_of_list_ascii l) = List.length l.
Proof. induction l as [|c l IH]; cbn; [reflexivity | rewrite IH; reflexivity]. Qed.

Lemma str_repeat_length (c : ascii) (k : nat) : String.length (str_repeat c k) = k.
Proof. induction k as [|k IH]; cbn; [reflexivity | rewrite IH; reflexivity]. Qed.

Lemma str_all_app (p : ascii -> bool) (s1 s2 : string) :
  str_all p (s1 ++ s2) = str_all p s1 && str_all p s2.
Proof.
  induction s1 as [|c s1 IH]; cbn; [reflexivity | rewrite IH, Bool.andb_assoc; reflexivity].
Qed.

(** ** The base62 alphabet *)

Lemma base62_char_spec (d : N) :
  d < 62 ->
  base62_digit (base62_char d) = Some d /\ is_ascii_alphanumeric (base62_char d) = true.
Proof.
  intros Hd. rewrite <- (N2Nat.id d) in *.
  assert (Hn : (N.to_nat d < 62)%nat) by lia.
  generalize dependent (N.to_nat d). clear d. intros n _ Hn.
  do 62 (destruct n as [|n]; [split; reflexivity|]). lia.
Qed.

Lemma base62_digits_bound (v : N) :
  0 < v -> v < 2 ^ 128 ->
  (List.length (le_digits 62 (N.to_nat (N.size v)) v) <= 22)%nat.
Proof.
  intros Hpos Hv. apply le_digits_length; [lia | apply size_fuel; lia |].
  change (62 ^ N.of_nat 22) with 2707803647802660400290261537185326956544. lia.
Qed.

Lemma base62_encode_length (v : N) : v < 2 ^ 128 -> (String.length (base62_encode v) <= 22)%nat.
Proof.
  intros Hv. unfold base62_encode. destruct (N.eqb_spec v 0) as [-> | Hz]; [cbn; lia|].
  rewrite str_length_of_list, length_map, length_rev. apply base62_digits_bound; lia.
Qed.

Lemma base62_decode_aux_app (s1 s2 : string) (i : nat) (acc : N) :
  base62_decode_aux (s1 ++ s2) i acc =
  match base62_decode_aux s1 i acc with
  | Ok a => base62_decode_aux s2 (i + String.length s1) a
  | Err e => Err e
  end.
Proof.
  revert i acc. induction s1 as [|c s1 IH]; intros i acc; cbn [append base62_decode_aux].
  - rewrite Nat.add_0_r. reflexivity.
  - destruct (base62_digit c); [|reflexivity].
    rewrite IH. cbn [String.length]. rewrite Nat.add_succ_r. reflexivity.
Qed.

Lemma base62_decode_aux_zeros (k i : nat) : base62_decode_aux (str_repeat "0" k) i 0 = Ok 0.
Proof. revert i. induction k as [|k IH]; intros i; [reflexivity | apply IH]. Qed.

Lemma base62_decode_aux_digits (ds : list N) (i : nat) (acc : N) :
  Forall (fun d => d < 62) ds ->
  base62_decode_aux (string_of_list_ascii (map base62_char ds)) i acc =
  Ok (fold_left (fun r d => r * 62 + d) ds acc).
Proof.
  intros Hds. revert i acc. induction Hds as [|d ds Hd Hds IH]; intros i acc; [reflexivity|].
  cbn [map string_of_list_ascii base62_decode_aux fold_left].
  rewrite (proj1 (base62_char_spec d Hd)). apply IH.
Qed.

Lemma str_all_alnum_digits (ds : list N) :
  Forall (fun d => d < 62) ds ->
  str_all is_ascii_alphanumeric (string_of_list_ascii (map base62_char ds)) = true.
Proof.
  induction 1 as [|d ds Hd Hds IH]; [reflexivity|].
  cbn [map string_of_list_ascii str_all]. rewrite (proj2 (base62_char_spec d Hd)), IH.
  reflexivity.
Qed.

Lemma str_all_alnum_zeros (k : nat) : str_all is_ascii_alphanumeric (str_repeat "0" k) = true.
Proof. induction k as [|k IH]; [reflexivity | exact IH]. Qed.

(** Decoding [base62_encode v] preceded by any number of ['0'] gives [v]
    back, and that string only holds alphanumeric characters. *)
Lemma base62_decode_aux_padded (k : nat) (v : N) :
  v < 2 ^ 128 ->
  base62_decode_aux (str_repeat "0" k ++ base62_encode v) 0 0 = Ok v /\
  str_all is_ascii_alphanumeric (str_repeat "0" k ++ base62_encode v) = true.
Proof.
  intros Hv. rewrite base62_decode_aux_app, base62_decode_aux_zeros, str_all_app,
    str_all_alnum_zeros.
  unfold base62_encode. destruct (N.eqb_spec v 0) as [-> | Hz]; [split; reflexivity|].
  assert (Hb : Forall (fun d => d < 62) (rev (le_digits 62 (N.to_nat (N.size v)) v)))
    by (apply Forall_rev, le_digits_bound; lia).
  rewrite base62_decode_aux_digits, str_all_alnum_digits by exact Hb.
  split; [|reflexivity]. f_equal.
  rewrite fold_digits, rev_involutive. rewrite le_digits_eval; [lia | lia |].
  apply size_fuel. lia.
Qed.

Lemma base62_decode_nonempty (s : string) (v : N) :
  s <> EmptyString -> base62_decode_aux s 0 0 = Ok v -> v < 2 ^ 128 ->
  base62_decode s = Ok v.
Proof.
  intros Hs Hd Hv. destruct s as [|c s]; [congruence|].
  unfold base62_decode. rewrite Hd. destruct (N.ltb_spec v (2 ^ 128)); [reflexivity | lia].
Qed.

Lemma base62_decode_lt (s : string) (v : N) : base62_decode s = Ok v -> v < 2 ^ 128.
Proof.
  unfold base62_decode. destruct s as [|c s]; [discriminate|].
  destruct (base62_decode_aux _ 0 0) as [w|]; [|discriminate].
  destruct (N.ltb_spec w (2 ^ 128)); [|discriminate]. intros E. injection E as <-. assumption.
Qed.

(** ** [u128::to_be_bytes] followed by [BigUint::from_bytes_be] *)

Lemma le_fixed_bound (k : nat) (v : N) : Forall (fun d => d < 256) (le_fixed k v).
Proof.
  revert v. induction k as [|k IH]; intros v; constructor; [apply N.mod_lt; lia | apply IH].
Qed.

Lemma le_fixed_eval (k : nat) (v : N) : le_eval 256 (le_fixed k v) = v mod 256 ^ N.of_nat k.
Proof.
  revert v. induction k as [|k IH]; intros v; cbn [le_fixed le_eval].
  - change (N.of_nat 0) with 0. rewrite N.pow_0_r, N.mod_1_r. reflexivity.
  - rewrite IH, Nat2N.inj_succ, N.pow_succ_r', N.Div0.mod_mul_r. reflexivity.
Qed.

Lemma u128_round_trip (v : N) : from_bytes_be (u128_to_be_bytes v) = v mod 2 ^ 128.
Proof.
  unfold u128_to_be_bytes. rewrite from_bytes_be_eval, to_N_map_byte_of_N, rev_involutive.
  - apply le_fixed_eval.
  - apply Forall_rev, le_fixed_bound.
Qed.

Lemma from_base62_decoded (s : string) (v : N) :
  base62_decode s = Ok v ->
  exists bs, biguint_to_bytes v = Ok bs /\ from_base62 s = Ok (mkTimeflake bs v).
Proof.
  intros Hd. pose proof (base62_decode_lt s v Hd) as Hv.
  destruct (biguint_to_bytes_ok v Hv) as [bs [E _]].
  exists bs. split; [exact E|].
  unfold from_base62. rewrite Hd, u128_round_trip, N.mod_small by exact Hv.
  rewrite max_timeflake_biguint_value.
  destruct (N.ltb_spec (2 ^ 128 - 1) v); [lia|]. rewrite E. reflexivity.
Qed.

(** ** The hex alphabet *)

Lemma hex_char_spec (d : N) :
  d < 16 -> str_contains HEX (hex_char d) = true /\ forall i, hex_val (hex_char d) i = Ok d.
Proof.
  intros Hd. rewrite <- (N2Nat.id d) in *.
  assert (Hn : (N.to_nat d < 16)%nat) by lia.
  generalize dependent (N.to_nat d). clear d. intros n _ Hn.
  do 16 (destruct n as [|n]; [split; [reflexivity | intros; reflexivity]|]). lia.
Qed.

Lemma hex_char_inv (c : ascii) :
  str_contains HEX c = true ->
  exists d, d < 16 /\ hex_char d = c /\ forall i, hex_val c i = Ok d.
Proof.
  intros H. exists (match hex_val c 0 with Ok d => d | Err _ => 0 end).
  unfold HEX in H. cbn [str_contains] in H.
  repeat (apply Bool.orb_true_iff in H; destruct H as [H | H];
          [apply Ascii.eqb_eq in H; subst c;
           split; [vm_compute; reflexivity | split; [vm_compute; reflexivity | intros; reflexivity]]|]).
  discriminate H.
Qed.

Lemma nibbles (b : Byte.byte) :
  N.shiftr (Byte.to_N b) 4 < 16 /\ N.land (Byte.to_N b) 15 < 16 /\
  N.lor (N.shiftl (N.shiftr (Byte.to_N b) 4) 4) (N.land (Byte.to_N b) 15) = Byte.to_N b.
Proof.
  pose proof (Byte.to_N_bounded b).
  change 15 with (2 ^ 4 - 1). rewrite land_low_mask, N.shiftr_div_pow2.
  rewrite lor_shiftl_low by (apply N.mod_lt; lia).
  N_divmod. split; [|split]; lia.
Qed.

Lemma hex_encode_length (bs : list Byte.byte) :
  String.length (hex_encode bs) = (2 * List.length bs)%nat.
Proof. induction bs as [|b bs IH]; cbn [hex_encode String.length List.length]; lia. Qed.

Lemma hex_encode_chars (bs : list Byte.byte) : str_all (str_contains HEX) (hex_encode bs) = true.
Proof.
  induction bs as [|b bs IH]; [reflexivity|]. cbn [hex_encode str_all].
  destruct (nibbles b) as [H1 [H2 _]].
  rewrite (proj1 (hex_char_spec _ H1)), (proj1 (hex_char_spec _ H2)), IH. reflexivity.
Qed.

Lemma hex_decode_pairs_encode (bs : list Byte.byte) (i : nat) :
  hex_decode_pairs (hex_encode bs) i = Ok bs.
Proof.
  revert i. induction bs as [|b bs IH]; intros i; [reflexivity|].
  cbn [hex_encode hex_decode_pairs]. destruct (nibbles b) as [H1 [H2 H3]].
  rewrite (proj2 (hex_char_spec _ H1)), (proj2 (hex_char_spec _ H2)), IH, H3.
  rewrite byte_of_N_to_N. reflexivity.
Qed.

Lemma hex_decode_pairs_chars (n : nat) (s : string) (i : nat) :
  String.length s = (2 * n)%nat -> str_all (str_contains HEX) s = true ->
  exists bs, hex_decode_pairs s i = Ok bs /\ List.length bs = n /\ hex_encode bs = s.
Proof.
  revert s i. induction n as [|n IH]; intros s i Hl Hc.
  - destruct s; [|discriminate]. exists []. split; [reflexivity | split; reflexivity].
  - destruct s as [|a [|b s]]; try (cbn in Hl; lia).
    cbn [str_all] in Hc. apply andb_prop in Hc as [Ha Hc].
    apply andb_prop in Hc as [Hb Hc].
    destruct (hex_char_inv a Ha) as [hi [Hhi [<- Ehi]]].
    destruct (hex_char_inv b Hb) as [lo [Hlo [<- Elo]]].
    destruct (IH s (S i)) as [bs [E [Hbl He]]]; [cbn in Hl; lia | exact Hc|].
    exists (byte_of_N (N.lor (N.shiftl hi 4) lo) :: bs).
    cbn [hex_decode_pairs]. rewrite Ehi, Elo, E. split; [reflexivity|].
    split; [cbn; rewrite Hbl; reflexivity|].
    cbn [hex_encode]. rewrite He, to_N_byte_of_N, lor_shiftl_low by lia.
    rewrite N.shiftr_div_pow2. change 15 with (2 ^ 4 - 1). rewrite land_low_mask.
    replace ((hi * 2 ^ 4 + lo) mod 256 / 2 ^ 4) with hi by (N_divmod; nia).
    replace ((hi * 2 ^ 4 + lo) mod 256 mod 2 ^ 4) with lo by (N_divmod; nia).
    reflexivity.
Qed.

(** ** [to_base62] on well-formed values *)

Lemma to_base62_wf (t : Timeflake) :
  wf t ->
  exists k, to_base62 t = (str_repeat "0" k ++ base62_encode (int_value t))%string /\
            String.length (to_base62 t) = 22%nat.
Proof.
  intros Hwf. destruct (wf_props t Hwf) as [Hlt [_ Hv]].
  pose proof (base62_encode_length _ Hlt) as He.
  unfold to_base62. change (u128_from_be_bytes (bytes t)) with (from_bytes_be (bytes t)).
  rewrite Hv.
  destruct (Nat.ltb_spec (String.length (base62_encode (int_value t))) 22).
  - eexists. split; [reflexivity|]. rewrite str_length_app, str_repeat_length. lia.
  - exists 0%nat. split; [reflexivity | lia].
Qed.

Lemma from_base62_to_base62 (t : Timeflake) : wf t -> from_base62 (to_base62 t) = Ok t.
Proof.
  intros Hwf. destruct (wf_props t Hwf) as [Hlt _].
  destruct (to_base62_wf t Hwf) as [k [E Hlen]]. rewrite E.
  destruct (base62_decode_aux_padded k (int_value t) Hlt) as [Hd _].
  apply base62_decode_nonempty in Hd; [| | exact Hlt].
  - destruct (from_base62_decoded _ _ Hd) as [bs' [E' ->]].
    rewrite Hwf in E'. injection E' as <-. destruct t; reflexivity.
  - intros Hs. rewrite E, Hs in Hlen. discriminate Hlen.
Qed.

Lemma from_str_hex (bs : list Byte.byte) :
  List.length bs = 16%nat -> from_str (hex_encode bs) = from_bytes bs.
Proof.
  intros Hl. unfold from_str.
  rewrite hex_encode_length, hex_encode_chars, Hl. cbn [Nat.eqb andb].
  unfold hex_decode. rewrite hex_encode_length, Hl. cbn [Nat.odd Nat.even Nat.mul Nat.add negb].
  rewrite hex_decode_pairs_encode, Hl. reflexivity.
Qed.

(** ** Big-endian values and lexicographic order *)

Lemma be_eval_cons (base d : N) (ds : list N) :
  be_eval base (d :: ds) = d * base ^ N.of_nat (List.length ds) + be_eval base ds.
Proof. unfold be_eval. cbn [fold_left]. rewrite !fold_digits. lia. Qed.

Lemma be_eval_bound (base : N) (ds : list N) :
  Forall (fun d => d < base) ds -> be_eval base ds < base ^ N.of_nat (List.length ds).
Proof.
  intros H. unfold be_eval. rewrite fold_digits, <- length_rev.
  assert (le_eval base (rev ds) < base ^ N.of_nat (List.length (rev ds)))
    by (apply le_eval_bound, Forall_rev, H).
  lia.
Qed.

Lemma digits_cmp_eval (base : N) (ds1 ds2 : list N) :
  Forall (fun d => d < base) ds1 -> Forall (fun d => d < base) ds2 ->
  List.length ds1 = List.length ds2 ->
  digits_cmp ds1 ds2 = N.compare (be_eval base ds1) (be_eval base ds2).
Proof.
  revert ds2. induction ds1 as [|d1 ds1 IH]; intros [|d2 ds2] H1 H2 Hl; try discriminate.
  - reflexivity.
  - inversion H1 as [|? ? Hd1 Hds1]; inversion H2 as [|? ? Hd2 Hds2]; subst.
    injection Hl as Hl. cbn [digits_cmp]. rewrite !be_eval_cons.
    pose proof (be_eval_bound base ds1 Hds1) as B1.
    pose proof (be_eval_bound base ds2 Hds2) as B2.
    rewrite IH by assumption. rewrite Hl in B1 |- *.
    set (P := base ^ N.of_nat (List.length ds2)) in *.
    destruct (N.compare_spec d1 d2) as [<- | Hlt | Hgt].
    + symmetry. destruct (N.compare_spec (be_eval base ds1) (be_eval base ds2));
        [apply N.compare_eq_iff | apply N.compare_lt_iff | apply N.compare_gt_iff]; lia.
    + symmetry. apply N.compare_lt_iff. nia.
    + symmetry. apply N.compare_gt_iff. nia.
Qed.

Lemma slice_cmp_digits (l1 l2 : list Byte.byte) :
  slice_cmp l1 l2 = digits_cmp (map Byte.to_N l1) (map Byte.to_N l2).
Proof.
  revert l2. induction l1 as [|a l1 IH]; intros [|b l2]; try reflexivity.
  cbn [slice_cmp digits_cmp map]. rewrite IH. reflexivity.
Qed.

Lemma from_bytes_be_be_eval (bs : list Byte.byte) :
  from_bytes_be bs = be_eval 256 (map Byte.to_N bs).
Proof. unfold from_bytes_be, be_eval. apply fold_bytes. Qed.

Lemma string_cmp_digits (f : N -> ascii) (base : N) (ds1 ds2 : list N) :
  (forall x y, x < base -> y < base -> Ascii.compare (f x) (f y) = N.compare x y) ->
  Forall (fun d => d < base) ds1 -> Forall (fun d => d < base) ds2 ->
  String.compare (string_of_list_ascii (map f ds1)) (string_of_list_ascii (map f ds2)) =
  digits_cmp ds1 ds2.
Proof.
  intros Hf H1. revert ds2.
  induction H1 as [|x ds1 Hx H1 IH]; intros [|y ds2] H2; try reflexivity.
  inversion H2; subst. cbn [map string_of_list_ascii String.compare digits_cmp].
  rewrite Hf by assumption.
  destruct (N.compare x y); [apply IH; assumption | reflexivity | reflexivity].
Qed.

Lemma string_of_list_ascii_app (l1 l2 : list ascii) :
  string_of_list_ascii (l1 ++ l2) = (string_of_list_ascii l1 ++ string_of_list_ascii l2)%string.
Proof. induction l1 as [|c l1 IH]; cbn; [reflexivity | rewrite IH; reflexivity]. Qed.

Lemma be_eval_zeros (base : N) (k : nat) (ds : list N) :
  be_eval base (repeat 0 k ++ ds) = be_eval base ds.
Proof.
  unfold be_eval. rewrite fold_left_app. f_equal.
  induction k as [|k IH]; [reflexivity|]. exact IH.
Qed.

(** ** Character codes of the alphabets *)

Lemma base62_char_code (d : N) :
  d < 62 ->
  N_of_ascii (base62_char d) = if d <? 10 then d + 48 else if d <? 36 then d + 55 else d + 61.
Proof.
  intros Hd. rewrite <- (N2Nat.id d) in *.
  assert (Hn : (N.to_nat d < 62)%nat) by lia.
  generalize dependent (N.to_nat d). clear d. intros n _ Hn.
  do 62 (destruct n as [|n]; [reflexivity|]). lia.
Qed.

Lemma base62_char_compare (x y : N) :
  x < 62 -> y < 62 -> Ascii.compare (base62_char x) (base62_char y) = N.compare x y.
Proof.
  intros Hx Hy. unfold Ascii.compare. rewrite !base62_char_code by assumption.
  destruct (N.ltb_spec x 10), (N.ltb_spec x 36), (N.ltb_spec y 10), (N.ltb_spec y 36);
    (destruct (N.compare_spec x y);
     [apply N.compare_eq_iff | apply N.compare_lt_iff | apply N.compare_gt_iff]); lia.
Qed.

Lemma hex_char_code (d : N) :
  d < 16 -> N_of_ascii (hex_char d) = if d <? 10 then d + 48 else d + 87.
Proof.
  intros Hd. rewrite <- (N2Nat.id d) in *.
  assert (Hn : (N.to_nat d < 16)%nat) by lia.
  generalize dependent (N.to_nat d). clear d. intros n _ Hn.
  do 16 (destruct n as [|n]; [reflexivity|]). lia.
Qed.

Lemma hex_char_compare (x y : N) :
  x < 16 -> y < 16 -> Ascii.compare (hex_char x) (hex_char y) = N.compare x y.
Proof.
  intros Hx Hy. unfold Ascii.compare. rewrite !hex_char_code by assumption.
  destruct (N.ltb_spec x 10), (N.ltb_spec y 10);
    (destruct (N.compare_spec x y);
     [apply N.compare_eq_iff | apply N.compare_lt_iff | apply N.compare_gt_iff]); lia.
Qed.

(** ** The hex digits of a byte string *)

Definition nibble_list (bs : list Byte.byte) : list N :=
  flat_map (fun b => [N.shiftr (Byte.to_N b) 4; N.land (Byte.to_N b) 15]) bs.

Lemma hex_encode_digits (bs : list Byte.byte) :
  hex_encode bs = string_of_list_ascii (map hex_char (nibble_list bs)).
Proof.
  induction bs as [|b bs IH]; [reflexivity|].
  cbn [hex_encode nibble_list flat_map app map string_of_list_ascii].
  rewrite IH. reflexivity.
Qed.

Lemma nibble_list_props (bs : list Byte.byte) :
  Forall (fun d => d < 16) (nibble_list bs) /\
  List.length (nibble_list bs) = (2 * List.length bs)%nat /\
  be_eval 16 (nibble_list bs) = from_bytes_be bs.
Proof.
  unfold be_eval, from_bytes_be.
  enough (H : forall acc, Forall (fun d => d < 16) (nibble_list bs) /\
    List.length (nibble_list bs) = (2 * List.length bs)%nat /\
    fold_left (fun r d => r * 16 + d) (nibble_list bs) acc =
    fold_left (fun r b => r * 256 + Byte.to_N b) bs acc) by apply H.
  induction bs as [|b bs IH]; intros acc; [split; [constructor | split; reflexivity]|].
  destruct (nibbles b) as [H1 [H2 H3]].
  rewrite lor_shiftl_low in H3 by exact H2.
  destruct (IH ((acc * 16 + N.shiftr (Byte.to_N b) 4) * 16 + N.land (Byte.to_N b) 15))
    as [Hf [Hl He]].
  split; [|split].
  - constructor; [exact H1|]. constructor; [exact H2 | exact Hf].
  - cbn [nibble_list flat_map app List.length]. fold (nibble_list bs). rewrite Hl. lia.
  - cbn [nibble_list flat_map app fold_left]. fold (nibble_list bs). rewrite He.
    f_equal. lia.
Qed.

(** ** [to_base62] as a digit string *)

Lemma str_repeat_zeros (k : nat) :
  str_repeat "0" k = string_of_list_ascii (map base62_char (repeat 0 k)).
Proof. induction k as [|k IH]; [reflexivity|]. cbn. rewrite IH. reflexivity. Qed.

Lemma base62_encode_digits (v : N) :
  exists ds, base62_encode v = string_of_list_ascii (map base62_char ds) /\
             Forall (fun d => d < 62) ds /\ be_eval 62 ds = v.
Proof.
  unfold base62_encode. destruct (N.eqb_spec v 0) as [-> | Hz].
  - exists [0]. split; [reflexivity|]. split; [repeat constructor | reflexivity].
  - exists (rev (le_digits 62 (N.to_nat (N.size v)) v)). split; [reflexivity|].
    split; [apply Forall_rev, le_digits_bound; lia|].
    unfold be_eval. rewrite fold_digits, rev_involutive, le_digits_eval;
      [lia | lia | apply size_fuel; lia].
Qed.

Lemma to_base62_digits (t : Timeflake) :
  wf t ->
  exists ds, to_base62 t = string_of_list_ascii (map base62_char ds) /\
             Forall (fun d => d < 62) ds /\ List.length ds = 22%nat /\
             be_eval 62 ds = int_value t.
Proof.
  intros Hwf. destruct (to_base62_wf t Hwf) as [k [E Hlen]].
  destruct (base62_encode_digits (int_value t)) as [es [Ee [Hes Hv]]].
  assert (E' : to_base62 t = string_of_list_ascii (map base62_char (repeat 0 k ++ es)))
    by (rewrite E, Ee, str_repeat_zeros, map_app, string_of_list_ascii_app; reflexivity).
  exists (repeat 0 k ++ es). split; [exact E'|]. split; [|split].
  - apply Forall_app. split; [|exact Hes].
    apply Forall_forall. intros x Hx. apply repeat_spec in Hx. lia.
  - rewrite E', str_length_of_list, length_map in Hlen. exact Hlen.
  - rewrite be_eval_zeros. exact Hv.
Qed.

(** ** Byte layout *)

Lemma from_bytes_be_app (l1 l2 : list Byte.byte) :
  from_bytes_be (l1 ++ l2) =
  from_bytes_be l1 * 256 ^ N.of_nat (List.length l2) + from_bytes_be l2.
Proof.
  unfold from_bytes_be at 1. rewrite fold_left_app.
  rewrite (fold_bytes l2), fold_digits, length_map, <- from_bytes_be_eval. reflexivity.
Qed.

Lemma layout_wf (t : Timeflake) :
  wf t ->
  timestamp t = Some (from_bytes_be (firstn 6 (bytes t))) /\
  random t = from_bytes_be (skipn 6 (bytes t)).
Proof.
  intros Hwf. destruct (wf_props t Hwf) as [_ [Hl Hv]].
  rewrite timestamp_wf by exact Hwf. rewrite random_mod, <- Hv.
  set (l := bytes t) in *.
  assert (E : from_bytes_be l =
              from_bytes_be (firstn 6 l) * 2 ^ 80 + from_bytes_be (skipn 6 l)).
  { rewrite <- (firstn_skipn 6 l) at 1.
    rewrite from_bytes_be_app, length_skipn, Hl. reflexivity. }
  assert (B : from_bytes_be (skipn 6 l) < 2 ^ 80).
  { pose proof (from_bytes_be_bound (skipn 6 l)) as B.
    rewrite length_skipn, Hl in B. exact B. }
  rewrite E. clear E Hv Hwf. split; [f_equal|]; N_divmod; lia.
Qed.

Lemma from_base62_err (s : string) (e : Error) :
  from_base62 s = Err e -> e = ParseError s "Invalid base62 encoding".
Proof.
  destruct (base62_decode s) as [v|] eqn:Hd.
  - destruct (from_base62_decoded s v Hd) as [bs [_ ->]]. discriminate.
  - unfold from_base62. rewrite Hd. intros E. injection E as <-. reflexivity.
Qed.

Lemma from_str_err_cases (s : string) (e : Error) :
  from_str s = Err e ->
  e = ParseError s "Invalid base62 encoding" \/
  e = ParseError s "String must be either a 32-character hex string or a base62 string".
Proof.
  unfold from_str.
  destruct (Nat.eqb_spec (String.length s) 32) as [Hl|Hl];
    destruct (str_all (str_contains HEX) s) eqn:Hc; cbn [andb].
  1: { destruct (hex_decode_pairs_chars 16 s 0 Hl Hc) as [bs [Ed [Hbl _]]].
        unfold hex_decode. rewrite Hl. cbn [Nat.odd Nat.even negb]. rewrite Ed, Hbl.
        cbn [Nat.eqb negb]. rewrite from_bytes_16 by exact Hbl. discriminate. }
  all: (destruct (Nat.leb (String.length s) 22 && str_all is_ascii_alphanumeric s);
        intros E; [left; apply from_base62_err, E | right; injection E as <-; reflexivity]).
Qed.

Lemma alnum_digit (c : ascii) :
  is_ascii_alphanumeric c = true -> exists d, base62_digit c = Some d /\ d < 62.
Proof.
  unfold is_ascii_alphanumeric, base62_digit. generalize (N_of_ascii c) as n. intros n.
  destruct (N.leb_spec 48 n), (N.leb_spec n 57), (N.leb_spec 65 n), (N.leb_spec n 90),
    (N.leb_spec 97 n), (N.leb_spec n 122); cbn [andb orb]; intros Hn;
    try discriminate Hn; eexists; (split; [reflexivity | lia]).
Qed.

Lemma base62_decode_aux_alnum (s : string) (i : nat) (acc : N) :
  str_all is_ascii_alphanumeric s = true ->
  exists v, base62_decode_aux s i acc = Ok v /\ v < (acc + 1) * 62 ^ N.of_nat (String.length s).
Proof.
  revert i acc. induction s as [|c s IH]; intros i acc H.
  - exists acc. split; [reflexivity|]. cbn [String.length]. change (N.of_nat 0) with 0.
    rewrite N.pow_0_r. lia.
  - cbn [str_all] in H. apply andb_prop in H as [Hc Hs].
    destruct (alnum_digit c Hc) as [d [Ed Hd]].
    destruct (IH (S i) (acc * 62 + d) Hs) as [v [Ev Hv]].
    exists v. cbn [base62_decode_aux]. rewrite Ed. split; [exact Ev|].
    cbn [String.length]. rewrite Nat2N.inj_succ, N.pow_succ_r'.
    assert (0 < 62 ^ N.of_nat (String.length s)) by (apply N.neq_0_lt_0, N.pow_nonzero; lia).
    nia.
Qed.

(** ** [new_random] *)

Lemma new_random_some (millis : Z) (random_bytes : list Byte.byte) :
  List.length random_bytes = 10%nat -> as_u64 millis <= MAX_TIMESTAMP ->
  exists t, new_random (Some millis) random_bytes = Some t /\ constructed t /\
            timestamp t = Some (as_u64 millis) /\
            random t = from_bytes_be random_bytes /\
            skipn 6 (to_bytes t) = random_bytes.
Proof.
  intros Hl Hts.
  pose proof (from_bytes_be_bound random_bytes) as Hb. rewrite Hl in Hb.
  assert (Hr : from_bytes_be random_bytes <= max_random_biguint)
    by (rewrite max_random_biguint_value; change (256 ^ N.of_nat 10) with (2 ^ 80) in Hb; lia).
  destruct (from_components_in_range _ _ Hts Hr) as [t [E Hv]].
  pose proof (from_components_wf _ _ _ E) as Hwf.
  destruct (wf_props t Hwf) as [_ [Htl _]].
  exists t. split; [unfold new_random; rewrite E; reflexivity|].
  rewrite MAX_TIMESTAMP_value in Hts. change (256 ^ N.of_nat 10) with (2 ^ 80) in Hb.
  split; [apply (constructed_from_components (as_u64 millis) (from_bytes_be random_bytes));
          [lia | exact E]|].
  destruct (layout_wf t Hwf) as [_ Hlr].
  assert (Hrand : random t = from_bytes_be random_bytes)
    by (rewrite random_mod, Hv; N_divmod; lia).
  split; [|split; [exact Hrand|]].
  - rewrite timestamp_wf by exact Hwf. rewrite Hv. f_equal. N_divmod. lia.
  - apply from_bytes_be_inj; [rewrite length_skipn; unfold to_bytes; lia|].
    unfold to_bytes. rewrite <- Hlr. exact Hrand.
Qed.

(** * Claims *)

(** C3: for every [timestamp <= MAX_TIMESTAMP] and [random <= MAX_RANDOM],
    [from_components timestamp random] succeeds and the value it builds
    gives back exactly [timestamp] from [timestamp()] and [random] from
    [random()]. *)
Theorem from_components_packing (ts r : N) :
  ts <= MAX_TIMESTAMP -> r <= max_random_biguint ->
  exists t, from_components ts r = Ok t /\ timestamp t = Some ts /\ random t = r.
Proof.
  intros Hts Hr.
  destruct (from_components_in_range ts r Hts Hr) as [t [E Hv]].
  exists t. split; [exact E|].
  rewrite (timestamp_wf t) by (eapply from_components_wf; exact E).
  rewrite random_mod, Hv.
  rewrite MAX_TIMESTAMP_value in Hts. rewrite max_random_biguint_value in Hr.
  split; [f_equal|]; N_divmod; nia.
Qed.

Lemma from_components_packing_witness :
  (123 <= MAX_TIMESTAMP /\ 456 <= max_random_biguint) /\
  exists t, from_components 123 456 = Ok t /\ timestamp t = Some 123 /\ random t = 456.
Proof.
  split; [split; vm_compute; discriminate|].
  apply from_components_packing; vm_compute; discriminate.
Defined.

(** C2 (as amended): [from_components timestamp random] fails with
    [InvalidTimestamp] exactly when [timestamp > MAX_TIMESTAMP], whatever
    [random] is; it fails with [InvalidRandom] exactly when
    [timestamp <= MAX_TIMESTAMP] and [random > MAX_RANDOM]: the timestamp is
    checked first, so an out-of-range timestamp hides an out-of-range
    random component. *)
Theorem from_components_errors (ts r : N) :
  ((exists x, from_components ts r = Err (InvalidTimestamp x)) <-> MAX_TIMESTAMP < ts) /\
  (from_components ts r = Err InvalidRandom <-> ts <= MAX_TIMESTAMP /\ max_random_biguint < r).
Proof.
  destruct (N.ltb_spec MAX_TIMESTAMP ts) as [Hts | Hts].
  - unfold from_components. rewrite (proj2 (N.ltb_lt _ _) Hts).
    split; split; intros H; try lia.
    + exists ts. reflexivity.
    + discriminate H.
  - destruct (N.ltb_spec max_random_biguint r) as [Hr | Hr].
    + unfold from_components.
      rewrite (proj2 (N.ltb_ge _ _) Hts), (proj2 (N.ltb_lt _ _) Hr).
      split; split; intros H; try lia.
      * destruct H as [x H]. discriminate H.
      * reflexivity.
    + destruct (from_components_in_range ts r Hts Hr) as [t [E _]]. rewrite E.
      split; split; intros H; try lia.
      * destruct H as [x H]. discriminate H.
      * discriminate H.
Qed.

(** C2, refuted as stated: with [timestamp = 2^48] and [random = 2^80]
    both out of range, [random > MAX_RANDOM] but the error is
    [InvalidTimestamp], not [InvalidRandom]. *)
Lemma from_components_random_error_depends_on_timestamp :
  ~ (forall ts r, from_components ts r = Err InvalidRandom <-> max_random_biguint < r).
Proof.
  intros H. specialize (H (2 ^ 48) (2 ^ 80)).
  assert (Hr : max_random_biguint < 2 ^ 80) by (vm_compute; reflexivity).
  apply H in Hr. vm_compute in Hr. discriminate Hr.
Qed.

(** C4: every value produced by a successful construction path
    ([from_bytes], [from_components], [from_base62], [from_bigint],
    [from_str]) has [int_value <= 2^128 - 1], a [timestamp()] within
    [MAX_TIMESTAMP], a [random()] within [MAX_RANDOM],
    [int_value = (timestamp() << 80) | random()], and stores as [bytes] the
    16-byte, left-zero-padded big-endian form of [int_value]. *)
Theorem constructed_invariants (t : Timeflake) :
  constructed t ->
  int_value t <= 2 ^ 128 - 1 /\
  (exists ts, timestamp t = Some ts /\ ts <= MAX_TIMESTAMP /\
              int_value t = N.lor (N.shiftl ts 80) (random t)) /\
  random t <= max_random_biguint /\
  biguint_to_bytes (int_value t) = Ok (bytes t) /\
  List.length (bytes t) = 16%nat /\ from_bytes_be (bytes t) = int_value t.
Proof.
  intros Hc. pose proof (constructed_wf t Hc) as Hwf.
  pose proof (wf_props t Hwf) as [Hlt [Hl Hv]].
  rewrite MAX_TIMESTAMP_value, max_random_biguint_value.
  split; [lia|]. split; [|split; [|split; [exact Hwf | split; assumption]]].
  - exists (int_value t / 2 ^ 80). split; [apply timestamp_wf, Hwf|].
    rewrite random_mod, lor_shiftl_low by (apply N.mod_lt; lia).
    split; N_divmod; nia.
  - rewrite random_mod. N_divmod. lia.
Qed.

Lemma constructed_invariants_witness :
  constructed (mkTimeflake sample_bytes 1909005012028578488143182045514754249) /\
  int_value (mkTimeflake sample_bytes 1909005012028578488143182045514754249) <= 2 ^ 128 - 1.
Proof.
  assert (Hc : constructed (mkTimeflake sample_bytes 1909005012028578488143182045514754249))
    by (apply (constructed_from_bytes sample_bytes); reflexivity).
  split; [exact Hc|]. apply (constructed_invariants _ Hc).
Defined.

(** C10: on every constructed value [timestamp()] does not panic (the
    [to_u64] of [int_value >> 80] succeeds) and returns at most
    [MAX_TIMESTAMP], and [random()] returns at most [MAX_RANDOM]; and
    [from_bytes] succeeds on every 16-byte input. *)
Theorem accessors_total :
  (forall t, constructed t ->
     (exists ts, timestamp t = Some ts /\ ts <= MAX_TIMESTAMP) /\
     random t <= max_random_biguint) /\
  (forall bs, List.length bs = 16%nat -> exists t, from_bytes bs = Ok t).
Proof.
  split.
  - intros t Hc. pose proof (constructed_wf t Hc) as Hwf.
    pose proof (wf_props t Hwf) as [Hlt _].
    rewrite MAX_TIMESTAMP_value, max_random_biguint_value, random_mod.
    split.
    + exists (int_value t / 2 ^ 80). split; [apply timestamp_wf, Hwf|]. N_divmod. nia.
    + N_divmod. lia.
  - intros bs Hl. eexists. apply from_bytes_16, Hl.
Qed.

Lemma accessors_total_witness :
  (exists ts, timestamp (mkTimeflake sample_bytes 1909005012028578488143182045514754249)
              = Some ts /\ ts <= MAX_TIMESTAMP) /\
  (exists t, from_bytes (repeat Byte.xff 16) = Ok t).
Proof.
  split.
  - apply (proj1 accessors_total).
    apply (constructed_from_bytes sample_bytes); reflexivity.
  - apply (proj2 accessors_total). reflexivity.
Defined.

(** C5: the order is the order of [int_value]: between constructed values a
    smaller [timestamp()] gives [Less] whatever the random components, equal
    timestamps compare as the [random()] components do, and [eq] holds
    exactly when all 128 bits of [int_value] agree. *)
Theorem order_timestamp_then_random (a b : Timeflake) :
  constructed a -> constructed b ->
  (forall ta tb, timestamp a = Some ta -> timestamp b = Some tb ->
     (ta < tb -> cmp a b = Lt) /\
     (ta = tb -> cmp a b = N.compare (random a) (random b))) /\
  (eq a b = true <->
   forall i, i < 128 -> N.testbit (int_value a) i = N.testbit (int_value b) i).
Proof.
  intros Ha Hb.
  pose proof (constructed_wf a Ha) as Hwa. pose proof (constructed_wf b Hb) as Hwb.
  pose proof (wf_props a Hwa) as [Hla _]. pose proof (wf_props b Hwb) as [Hlb _].
  split.
  - intros ta tb Hta Htb.
    rewrite timestamp_wf in Hta by exact Hwa. rewrite timestamp_wf in Htb by exact Hwb.
    injection Hta as <-. injection Htb as <-.
    rewrite !random_mod. unfold cmp.
    pose proof (N.div_mod (int_value a) (2 ^ 80) ltac:(lia)) as Ea.
    pose proof (N.div_mod (int_value b) (2 ^ 80) ltac:(lia)) as Eb.
    pose proof (N.mod_lt (int_value a) (2 ^ 80) ltac:(lia)).
    pose proof (N.mod_lt (int_value b) (2 ^ 80) ltac:(lia)).
    split; intros Htab.
    + apply N.compare_lt_iff. clear Ea Eb. N_divmod. nia.
    + clear Ea Eb. N_divmod.
      destruct (N.compare_spec r r0);
        [apply N.compare_eq_iff | apply N.compare_lt_iff | apply N.compare_gt_iff]; nia.
  - unfold eq. rewrite N.eqb_eq. split.
    + intros ->. reflexivity.
    + intros H. apply N.bits_inj. intros i.
      destruct (N.lt_ge_cases i 128) as [Hi | Hi]; [apply H, Hi|].
      rewrite <- (N.mod_small (int_value a) (2 ^ 128)) by exact Hla.
      rewrite <- (N.mod_small (int_value b) (2 ^ 128)) by exact Hlb.
      rewrite !N.mod_pow2_bits_high by exact Hi. reflexivity.
Qed.

Lemma order_timestamp_then_random_witness :
  cmp (mkTimeflake sample_bytes 1909005012028578488143182045514754249)
      (mkTimeflake (repeat Byte.xff 16) (2 ^ 128 - 1)) = Lt.
Proof.
  destruct (order_timestamp_then_random
              (mkTimeflake sample_bytes 1909005012028578488143182045514754249)
              (mkTimeflake (repeat Byte.xff 16) (2 ^ 128 - 1))) as [Hord _].
  - apply (constructed_from_bytes sample_bytes); reflexivity.
  - apply (constructed_from_bytes (repeat Byte.xff 16)); reflexivity.
  - destruct (Hord 1579091935216 (2 ^ 48 - 1)) as [Hlt _];
      [vm_compute; reflexivity | vm_compute; reflexivity |].
    apply Hlt. vm_compute. reflexivity.
Defined.

(** C1: every constructed value is rebuilt exactly from each of its
    encodings: [from_base62] and [from_str] of [to_base62 x], [from_str] of
    [to_hex x], [from_bytes] of [to_bytes x] and [from_bigint] of
    [to_bigint x] all return [x]. *)
Theorem encodings_round_trip (x : Timeflake) :
  constructed x ->
  from_base62 (to_base62 x) = Ok x /\ from_str (to_base62 x) = Ok x /\
  from_str (to_hex x) = Ok x /\ from_bytes (to_bytes x) = Ok x /\
  from_bigint (to_bigint x) = Ok x.
Proof.
  intros Hc. pose proof (constructed_wf x Hc) as Hwf.
  destruct (wf_props x Hwf) as [Hlt [Hl Hv]].
  pose proof (from_base62_to_base62 x Hwf) as Hb62.
  assert (Hbytes : from_bytes (bytes x) = Ok x).
  { rewrite from_bytes_16 by exact Hl. rewrite Hv. destruct x; reflexivity. }
  split; [exact Hb62|]. split; [|split; [|split]].
  - destruct (to_base62_wf x Hwf) as [k [E Hlen]].
    destruct (base62_decode_aux_padded k (int_value x) Hlt) as [_ Halnum].
    rewrite <- E in Halnum.
    unfold from_str. rewrite Hlen, Halnum. exact Hb62.
  - unfold to_hex. rewrite from_str_hex by exact Hl. exact Hbytes.
  - exact Hbytes.
  - unfold from_bigint, to_bigint. rewrite Hwf. exact Hbytes.
Qed.

Lemma encodings_round_trip_witness :
  from_str (to_hex (mkTimeflake sample_bytes 1909005012028578488143182045514754249)) =
  Ok (mkTimeflake sample_bytes 1909005012028578488143182045514754249).
Proof.
  apply (encodings_round_trip (mkTimeflake sample_bytes 1909005012028578488143182045514754249)).
  apply (constructed_from_bytes sample_bytes); reflexivity.
Defined.

(** C7: for every constructed value, the zero value included, [to_base62]
    has exactly 22 characters (the encoding left-padded with ['0']) and
    [to_hex] exactly 32 lowercase hexadecimal characters. *)
Theorem encodings_fixed_width (t : Timeflake) :
  constructed t ->
  String.length (to_base62 t) = 22%nat /\
  (exists k, to_base62 t = (str_repeat "0"%char k ++ base62_encode (int_value t))%string) /\
  String.length (to_hex t) = 32%nat /\ str_all (str_contains HEX) (to_hex t) = true.
Proof.
  intros Hc. pose proof (constructed_wf t Hc) as Hwf.
  destruct (wf_props t Hwf) as [_ [Hl _]].
  destruct (to_base62_wf t Hwf) as [k [E Hlen]].
  split; [exact Hlen|]. split; [exists k; exact E|].
  unfold to_hex. rewrite hex_encode_length, Hl. split; [reflexivity | apply hex_encode_chars].
Qed.

Lemma encodings_fixed_width_witness :
  from_components 0 0 = Ok (mkTimeflake (repeat Byte.x00 16) 0) /\
  String.length (to_base62 (mkTimeflake (repeat Byte.x00 16) 0)) = 22%nat.
Proof.
  assert (E : from_components 0 0 = Ok (mkTimeflake (repeat Byte.x00 16) 0))
    by (vm_compute; reflexivity).
  split; [exact E|].
  apply (encodings_fixed_width (mkTimeflake (repeat Byte.x00 16) 0)).
  apply (constructed_from_components 0 0); [vm_compute; reflexivity | exact E].
Defined.

(** C6: a string of exactly 32 characters, all from [HEX], is read by
    [from_str] as hexadecimal (the result's [to_hex] is the input) even when
    it is also valid Base62; a string that is neither 32 hex characters nor
    at most 22 alphanumeric characters is refused with a parse error. *)
Theorem from_str_format_choice (s : string) :
  (String.length s = 32%nat /\ str_all (str_contains HEX) s = true ->
   exists t, from_str s = Ok t /\ to_hex t = s) /\
  (~ (String.length s = 32%nat /\ str_all (str_contains HEX) s = true) ->
   ~ ((String.length s <= 22)%nat /\ str_all is_ascii_alphanumeric s = true) ->
   from_str s =
   Err (ParseError s "String must be either a 32-character hex string or a base62 string")).
Proof.
  split.
  - intros [Hl Hc]. destruct (hex_decode_pairs_chars 16 s 0 Hl Hc) as [bs [_ [Hbl He]]].
    exists (mkTimeflake bs (from_bytes_be bs)). split; [|exact He].
    rewrite <- He, from_str_hex by exact Hbl. apply from_bytes_16, Hbl.
  - intros Hh Hb. unfold from_str.
    assert (E1 : Nat.eqb (String.length s) 32 && str_all (str_contains HEX) s = false).
    { destruct (Nat.eqb_spec (String.length s) 32);
        destruct (str_all (str_contains HEX) s); try reflexivity.
      exfalso. apply Hh. split; [assumption | reflexivity]. }
    assert (E2 : Nat.leb (String.length s) 22 && str_all is_ascii_alphanumeric s = false).
    { destruct (Nat.leb_spec (String.length s) 22);
        destruct (str_all is_ascii_alphanumeric s); try reflexivity.
      exfalso. apply Hb. split; [assumption | reflexivity]. }
    rewrite E1, E2. reflexivity.
Qed.

(** The witness also shows the hex reading of a string that is valid in
    both formats: [from_base62] would give the value 62, [from_str] gives
    0x10. *)
Lemma from_str_format_choice_witness :
  (exists t, from_str "00000000000000000000000000000010" = Ok t /\
             to_hex t = "00000000000000000000000000000010"%string) /\
  from_str "zz!" =
  Err (ParseError "zz!" "String must be either a 32-character hex string or a base62 string") /\
  (exists t, from_base62 "00000000000000000000000000000010" = Ok t /\ int_value t = 62).
Proof.
  split; [|split].
  - apply (proj1 (from_str_format_choice "00000000000000000000000000000010")).
    split; vm_compute; reflexivity.
  - apply (proj2 (from_str_format_choice "zz!")).
    + intros [H _]. vm_compute in H. discriminate H.
    + intros [_ H]. vm_compute in H. discriminate H.
  - eexists. split; [vm_compute; reflexivity | reflexivity].
Defined.

(** C8 (code defect): [from_base62] reports every failure as the same
    [ParseError s "Invalid base62 encoding"]: the base62 crate already
    refuses values beyond [u128], so the [InvalidFlake] branch of
    [from_base62] (the error its documentation promises for a value above
    the maximum) is never taken.  The 22-character string of ['z'] has
    value [62^22 - 1 > 2^128 - 1] and gets the same error as a string with
    a character outside the alphabet. *)
Theorem from_base62_range_error_not_distinguished :
  (forall s e, from_base62 s = Err e -> e = ParseError s "Invalid base62 encoding") /\
  base62_decode_aux "zzzzzzzzzzzzzzzzzzzzzz" 0 0 = Ok (62 ^ 22 - 1) /\
  2 ^ 128 - 1 < 62 ^ 22 - 1 /\
  from_base62 "zzzzzzzzzzzzzzzzzzzzzz" =
  Err (ParseError "zzzzzzzzzzzzzzzzzzzzzz" "Invalid base62 encoding") /\
  from_base62 "zz!" = Err (ParseError "zz!" "Invalid base62 encoding").
Proof.
  split; [|split; [|split; [|split]]]; [| vm_compute; reflexivity ..].
  intros s e. destruct (base62_decode s) as [v|] eqn:Hd.
  - destruct (from_base62_decoded s v Hd) as [bs [_ ->]]. discriminate.
  - unfold from_base62. rewrite Hd. intros E. injection E as <-. reflexivity.
Qed.

(** C9: the 16 bytes [01 6f a9 36 bf f0 99 7a 0a 3c 42 85 48 fe e8 c9] give
    timestamp 1579091935216, random 724773312193627487660233, integer
    1909005012028578488143182045514754249, hex
    "016fa936bff0997a0a3c428548fee8c9" and Base62 "02i1KoFfY3auBS745gImbZ". *)
Theorem sample_bytes_scenario :
  exists t, from_bytes sample_bytes = Ok t /\
            timestamp t = Some 1579091935216 /\
            random t = 724773312193627487660233 /\
            to_bigint t = 1909005012028578488143182045514754249 /\
            to_hex t = "016fa936bff0997a0a3c428548fee8c9"%string /\
            to_base62 t = "02i1KoFfY3auBS745gImbZ"%string.
Proof.
  eexists. split; [reflexivity|].
  split; [|split; [|split; [|split]]]; vm_compute; reflexivity.
Qed.

Lemma from_components_errors_witness :
  from_components 0 (2 ^ 80) = Err InvalidRandom.
Proof.
  apply (proj2 (proj2 (from_components_errors 0 (2 ^ 80)))).
  split; vm_compute; [discriminate | reflexivity].
Defined.

(** * Further properties of the code *)

(** [new_random], when the clock reading fits ([as u64] of the milliseconds
    is at most [MAX_TIMESTAMP]), does not panic: the value is constructed,
    its timestamp is the clock reading, its random component the big-endian
    value of the 10 random bytes, and those bytes are the last 10 of
    [to_bytes]. *)
Theorem new_random_layout (millis : Z) (random_bytes : list Byte.byte) :
  List.length random_bytes = 10%nat -> as_u64 millis <= MAX_TIMESTAMP ->
  exists t, new_random (Some millis) random_bytes = Some t /\ constructed t /\
            timestamp t = Some (as_u64 millis) /\
            random t = from_bytes_be random_bytes /\
            skipn 6 (to_bytes t) = random_bytes.
Proof. apply new_random_some. Qed.

Lemma new_random_layout_witness :
  List.length (repeat Byte.xff 10) = 10%nat /\ as_u64 1579091935216 <= MAX_TIMESTAMP /\
  exists t, new_random (Some 1579091935216%Z) (repeat Byte.xff 10) = Some t /\
            timestamp t = Some 1579091935216.
Proof.
  split; [reflexivity|]. split; [vm_compute; discriminate|].
  destruct (new_random_layout 1579091935216 (repeat Byte.xff 10)) as [t [E [_ [Ht _]]]];
    [reflexivity | vm_compute; discriminate |].
  exists t. split; [exact E | exact Ht].
Defined.

(** [new_random] panics exactly when [UtcTime::now()] fails or the clock
    reading, cast to [u64], exceeds [MAX_TIMESTAMP]; the random bytes never
    make it panic. *)
Theorem new_random_panics (clock : option Z) (random_bytes : list Byte.byte) :
  List.length random_bytes = 10%nat ->
  (new_random clock random_bytes = None <->
   clock = None \/ exists millis, clock = Some millis /\ MAX_TIMESTAMP < as_u64 millis).
Proof.
  intros Hl. destruct clock as [millis|]; [|split; [left; reflexivity | reflexivity]].
  destruct (N.ltb_spec MAX_TIMESTAMP (as_u64 millis)) as [Hlt | Hge].
  - unfold new_random, from_components. rewrite (proj2 (N.ltb_lt _ _) Hlt).
    split; [intros _; right; exists millis; split; [reflexivity | exact Hlt] | reflexivity].
  - destruct (new_random_some millis random_bytes Hl Hge) as [t [E _]]. rewrite E.
    split; [discriminate|].
    intros [H | [m [Hm Hlt]]]; [discriminate H|]. injection Hm as <-. lia.
Qed.

Lemma new_random_panics_witness :
  List.length (repeat Byte.x00 10) = 10%nat /\
  new_random (Some (2 ^ 48)%Z) (repeat Byte.x00 10) = None.
Proof.
  split; [reflexivity|]. apply (new_random_panics (Some (2 ^ 48)%Z) (repeat Byte.x00 10));
    [reflexivity|]. right. exists (2 ^ 48)%Z. split; [reflexivity | vm_compute; reflexivity].
Defined.

(** On every constructed value, [timestamp()] is the big-endian value of the
    first 6 bytes of [to_bytes()] and [random()] that of the last 10. *)
Theorem accessors_byte_layout (t : Timeflake) :
  constructed t ->
  timestamp t = Some (from_bytes_be (firstn 6 (to_bytes t))) /\
  random t = from_bytes_be (skipn 6 (to_bytes t)).
Proof. intros Hc. apply layout_wf, constructed_wf, Hc. Qed.

Lemma accessors_byte_layout_witness :
  random (mkTimeflake sample_bytes 1909005012028578488143182045514754249) =
  from_bytes_be (skipn 6 sample_bytes).
Proof.
  apply (accessors_byte_layout (mkTimeflake sample_bytes 1909005012028578488143182045514754249)).
  apply (constructed_from_bytes sample_bytes); reflexivity.
Defined.

(** [Hash] agrees with [PartialEq]: two constructed values are equal
    exactly when the bytes fed to the hasher are equal. *)
Theorem hash_consistent_with_eq (a b : Timeflake) :
  constructed a -> constructed b -> (eq a b = true <-> hash_data a = hash_data b).
Proof.
  intros Ha Hb. pose proof (constructed_wf a Ha) as Hwa. pose proof (constructed_wf b Hb) as Hwb.
  destruct (wf_props a Hwa) as [_ [_ Hva]]. destruct (wf_props b Hwb) as [_ [_ Hvb]].
  unfold eq, hash_data. rewrite N.eqb_eq. split.
  - intros He. unfold wf in Hwa, Hwb. rewrite He, Hwb in Hwa. congruence.
  - intros He. rewrite <- Hva, <- Hvb, He. reflexivity.
Qed.

Lemma hash_consistent_with_eq_witness :
  hash_data (mkTimeflake sample_bytes 1909005012028578488143182045514754249) =
  hash_data (mkTimeflake sample_bytes 1909005012028578488143182045514754249).
Proof.
  apply (hash_consistent_with_eq (mkTimeflake sample_bytes 1909005012028578488143182045514754249)
           (mkTimeflake sample_bytes 1909005012028578488143182045514754249));
    [apply (constructed_from_bytes sample_bytes); reflexivity ..|].
  vm_compute. reflexivity.
Defined.

(** [Ord] on constructed values is the lexicographic order of their
    16-byte arrays [to_bytes()]. *)
Theorem cmp_is_bytes_order (a b : Timeflake) :
  constructed a -> constructed b -> cmp a b = slice_cmp (to_bytes a) (to_bytes b).
Proof.
  intros Ha Hb.
  destruct (wf_props a (constructed_wf a Ha)) as [_ [Hla Hva]].
  destruct (wf_props b (constructed_wf b Hb)) as [_ [Hlb Hvb]].
  unfold cmp, to_bytes. rewrite slice_cmp_digits, (digits_cmp_eval 256).
  - rewrite <- !from_bytes_be_be_eval, Hva, Hvb. reflexivity.
  - apply to_N_bytes_bound.
  - apply to_N_bytes_bound.
  - rewrite !length_map. congruence.
Qed.

Lemma cmp_is_bytes_order_witness :
  slice_cmp (to_bytes (mkTimeflake (repeat Byte.x00 16) 0))
            (to_bytes (mkTimeflake sample_bytes 1909005012028578488143182045514754249)) =
  cmp (mkTimeflake (repeat Byte.x00 16) 0)
      (mkTimeflake sample_bytes 1909005012028578488143182045514754249).
Proof.
  symmetry. apply cmp_is_bytes_order.
  - apply (constructed_from_bytes (repeat Byte.x00 16)); reflexivity.
  - apply (constructed_from_bytes sample_bytes); reflexivity.
Defined.

(** [to_hex()] strings of constructed values sort (as Rust compares [str],
    byte by byte) exactly as the values do. *)
Theorem to_hex_order (a b : Timeflake) :
  constructed a -> constructed b -> String.compare (to_hex a) (to_hex b) = cmp a b.
Proof.
  intros Ha Hb.
  destruct (wf_props a (constructed_wf a Ha)) as [_ [Hla Hva]].
  destruct (wf_props b (constructed_wf b Hb)) as [_ [Hlb Hvb]].
  destruct (nibble_list_props (bytes a)) as [Fa [La Ea]].
  destruct (nibble_list_props (bytes b)) as [Fb [Lb Eb]].
  unfold to_hex, cmp. rewrite !hex_encode_digits.
  rewrite (string_cmp_digits hex_char 16) by (exact hex_char_compare || assumption).
  rewrite (digits_cmp_eval 16) by (assumption || congruence).
  rewrite Ea, Eb, Hva, Hvb. reflexivity.
Qed.

Lemma to_hex_order_witness :
  String.compare (to_hex (mkTimeflake sample_bytes 1909005012028578488143182045514754249))
                 (to_hex (mkTimeflake (repeat Byte.xff 16) (2 ^ 128 - 1))) =
  cmp (mkTimeflake sample_bytes 1909005012028578488143182045514754249)
      (mkTimeflake (repeat Byte.xff 16) (2 ^ 128 - 1)).
Proof.
  apply to_hex_order.
  - apply (constructed_from_bytes sample_bytes); reflexivity.
  - apply (constructed_from_bytes (repeat Byte.xff 16)); reflexivity.
Defined.

(** The [Display] output (which is [to_base62()]) of constructed values
    sorts, as Rust compares [str], exactly as the values do: the 22-character
    padding and the alphabet [0-9A-Za-z], in increasing byte order, make the
    text order the numeric order. *)
Theorem to_base62_order (a b : Timeflake) :
  constructed a -> constructed b ->
  String.compare (fmt_Timeflake a) (fmt_Timeflake b) = cmp a b.
Proof.
  intros Ha Hb.
  destruct (to_base62_digits a (constructed_wf a Ha)) as [da [Ea [Fa [La Va]]]].
  destruct (to_base62_digits b (constructed_wf b Hb)) as [db [Eb [Fb [Lb Vb]]]].
  unfold fmt_Timeflake, cmp. rewrite Ea, Eb.
  rewrite (string_cmp_digits base62_char 62) by (exact base62_char_compare || assumption).
  rewrite (digits_cmp_eval 62) by (assumption || congruence).
  rewrite Va, Vb. reflexivity.
Qed.

Lemma to_base62_order_witness :
  String.compare (fmt_Timeflake (mkTimeflake (repeat Byte.x00 16) 0))
                 (fmt_Timeflake (mkTimeflake sample_bytes 1909005012028578488143182045514754249)) =
  Lt.
Proof.
  rewrite to_base62_order.
  - vm_compute. reflexivity.
  - apply (constructed_from_bytes (repeat Byte.x00 16)); reflexivity.
  - apply (constructed_from_bytes sample_bytes); reflexivity.
Defined.

(** [from_uuid] accepts every UUID and [to_uuid] gives it back; conversely
    [from_uuid (to_uuid x)] rebuilds every constructed [x]. *)
Theorem uuid_round_trip :
  (forall u, List.length (uuid_bytes u) = 16%nat ->
     exists t, from_uuid u = Ok t /\ constructed t /\ to_uuid t = u) /\
  (forall t, constructed t -> from_uuid (to_uuid t) = Ok t).
Proof.
  split.
  - intros u Hl. exists (mkTimeflake (uuid_bytes u) (from_bytes_be (uuid_bytes u))).
    assert (E : from_uuid u = Ok (mkTimeflake (uuid_bytes u) (from_bytes_be (uuid_bytes u))))
      by (apply from_bytes_16, Hl).
    split; [exact E|]. split; [exact (constructed_from_bytes _ _ Hl E)|].
    destruct u; reflexivity.
  - intros t Hc. destruct (wf_props t (constructed_wf t Hc)) as [_ [Hl Hv]].
    unfold from_uuid, to_uuid. cbn [uuid_bytes]. rewrite from_bytes_16 by exact Hl.
    rewrite Hv. destruct t; reflexivity.
Qed.

Lemma uuid_round_trip_witness :
  exists t, from_uuid (mkUuid sample_bytes) = Ok t /\ to_uuid t = mkUuid sample_bytes.
Proof.
  destruct (proj1 uuid_round_trip (mkUuid sample_bytes)) as [t [E [_ Hu]]]; [reflexivity|].
  exists t. split; [exact E | exact Hu].
Defined.

(** The [_checked] constructors: [from_bytes_checked] and
    [from_uuid_checked] never panic on their 16 bytes;
    [from_components_checked] panics exactly when a component is out of
    range; [from_bigint_checked] exactly on values of [2^128] or more;
    [from_base62_checked] exactly when the base62 crate refuses the string. *)
Theorem checked_constructors_panic :
  (forall bs, List.length bs = 16%nat -> from_bytes_checked bs <> None) /\
  (forall u, List.length (uuid_bytes u) = 16%nat -> from_uuid_checked u <> None) /\
  (forall ts r, from_components_checked ts r = None <->
                MAX_TIMESTAMP < ts \/ max_random_biguint < r) /\
  (forall v, from_bigint_checked v = None <-> 2 ^ 128 <= v) /\
  (forall s, from_base62_checked s = None <-> exists e, base62_decode s = Err e).
Proof.
  split; [|split; [|split; [|split]]].
  - intros bs Hl. unfold from_bytes_checked. rewrite from_bytes_16 by exact Hl. discriminate.
  - intros u Hl. unfold from_uuid_checked, from_uuid. rewrite from_bytes_16 by exact Hl.
    discriminate.
  - intros ts r. unfold from_components_checked.
    destruct (N.ltb_spec MAX_TIMESTAMP ts) as [Hts | Hts].
    + unfold from_components. rewrite (proj2 (N.ltb_lt _ _) Hts). split; [auto | reflexivity].
    + destruct (N.ltb_spec max_random_biguint r) as [Hr | Hr].
      * unfold from_components. rewrite (proj2 (N.ltb_ge _ _) Hts), (proj2 (N.ltb_lt _ _) Hr).
        split; [auto | reflexivity].
      * destruct (from_components_in_range ts r Hts Hr) as [t [E _]]. rewrite E.
        split; [discriminate | lia].
  - intros v. unfold from_bigint_checked, from_bigint.
    destruct (N.lt_ge_cases v (2 ^ 128)) as [Hv | Hv].
    + destruct (biguint_to_bytes_ok v Hv) as [bs [E [Hl _]]].
      rewrite E, from_bytes_16 by exact Hl. split; [discriminate | lia].
    + destruct (biguint_to_bytes v) as [bs|] eqn:E.
      * apply biguint_to_bytes_inv in E. lia.
      * split; [intros _; exact Hv | reflexivity].
  - intros s. unfold from_base62_checked. destruct (base62_decode s) as [v|e] eqn:Hd.
    + destruct (from_base62_decoded s v Hd) as [bs [_ ->]].
      split; [discriminate | intros [e He]; discriminate He].
    + unfold from_base62. rewrite Hd. split; [intros _; exists e; reflexivity | reflexivity].
Qed.

Lemma checked_constructors_panic_witness :
  from_bigint_checked (2 ^ 128) = None /\ from_bytes_checked sample_bytes <> None.
Proof.
  split.
  - apply (proj2 (proj1 (proj2 (proj2 (proj2 checked_constructors_panic))) (2 ^ 128))).
    lia.
  - apply (proj1 checked_constructors_panic). reflexivity.
Defined.

(** [from_bigint] on a value of [2^128] or more fails with the
    [ConversionError] of [biguint_to_bytes], whose message gives the length
    [len > 16] of the minimal big-endian encoding: the [len] with
    [256^(len-1) <= value < 256^len]. *)
Theorem from_bigint_overflow (v : N) :
  2 ^ 128 <= v ->
  exists len : nat,
    (16 < len)%nat /\ 256 ^ N.of_nat (len - 1) <= v < 256 ^ N.of_nat len /\
    from_bigint v =
    Err (ConversionError ("BigUint is too large to fit in 16 bytes (got "
                          ++ fmt_N (N.of_nat len) ++ " bytes)")%string).
Proof.
  intros Hv. exists (List.length (to_bytes_be v)).
  assert (Hlen : (16 < List.length (to_bytes_be v))%nat).
  { destruct (Nat.lt_ge_cases 16 (List.length (to_bytes_be v))) as [H | H]; [exact H|].
    apply to_bytes_be_length in H. lia. }
  split; [exact Hlen|]. split.
  - unfold to_bytes_be in *. destruct (N.eqb_spec v 0) as [Hz | Hz]; [lia|].
    rewrite length_map, length_rev in *.
    assert (Hf : v < 256 ^ N.of_nat (N.to_nat (N.size v))) by (apply size_fuel; lia).
    pose proof (le_digits_length 256 _ v ltac:(lia) Hf) as Hk.
    split.
    + destruct (N.lt_ge_cases v (256 ^ N.of_nat
                 (List.length (le_digits 256 (N.to_nat (N.size v)) v) - 1))) as [H | H];
        [|exact H].
      apply Hk in H. lia.
    + apply Hk. lia.
  - unfold from_bigint, biguint_to_bytes. rewrite (proj2 (Nat.ltb_lt _ _) Hlen). reflexivity.
Qed.

Lemma from_bigint_overflow_witness :
  2 ^ 128 <= 2 ^ 128 /\
  from_bigint (2 ^ 128) =
  Err (ConversionError "BigUint is too large to fit in 16 bytes (got 17 bytes)").
Proof.
  split; [lia|].
  destruct (from_bigint_overflow (2 ^ 128)) as [len [Hl [[H1 H2] E]]]; [lia|].
  rewrite E. do 2 f_equal.
  assert (len = 17%nat).
  { destruct (Nat.lt_ge_cases len 18) as [H | H]; [lia|].
    exfalso. assert (256 ^ N.of_nat 17 <= 256 ^ N.of_nat (len - 1))
      by (apply N.pow_le_mono_r; lia).
    change (256 ^ N.of_nat 17) with (2 ^ 136) in *. lia. }
  subst len. reflexivity.
Defined.

(** [from_str] only ever fails with one of two parse errors: the hex
    branch cannot fail (a 32-character string of [HEX] digits always decodes
    to 16 bytes, so the "Invalid hex" and "Expected 16 bytes" errors are
    unreachable), and [from_base62] reports every failure the same way. *)
Theorem from_str_errors (s : string) (e : Error) :
  from_str s = Err e ->
  e = ParseError s "Invalid base62 encoding" \/
  e = ParseError s "String must be either a 32-character hex string or a base62 string".
Proof. apply from_str_err_cases. Qed.

Lemma from_str_errors_witness :
  from_str "" = Err (ParseError "" "Invalid base62 encoding") /\
  (ParseError "" "Invalid base62 encoding" = ParseError "" "Invalid base62 encoding" \/
   ParseError "" "Invalid base62 encoding" =
   ParseError "" "String must be either a 32-character hex string or a base62 string").
Proof.
  assert (E : from_str "" = Err (ParseError "" "Invalid base62 encoding"))
    by (vm_compute; reflexivity).
  split; [exact E | apply (from_str_errors _ _ E)].
Defined.



(** Every nonempty string of at most 21 ASCII alphanumeric characters is
    accepted by [from_base62] and by [from_str], with the string's base-62
    value as [int_value] (62^21 is below 2^128, so no such string
    overflows). *)
Theorem from_base62_short_alnum (s : string) :
  s <> EmptyString -> (String.length s <= 21)%nat -> str_all is_ascii_alphanumeric s = true ->
  exists v t, base62_decode_aux s 0 0 = Ok v /\ from_base62 s = Ok t /\
              from_str s = Ok t /\ int_value t = v.
Proof.
  intros Hne Hl Ha.
  destruct (base62_decode_aux_alnum s 0 0 Ha) as [v [Ev Hv]].
  assert (Hlt : v < 2 ^ 128).
  { assert (62 ^ N.of_nat (String.length s) <= 62 ^ 21)
      by (apply N.pow_le_mono_r; lia).
    assert (62 ^ 21 < 2 ^ 128) by (vm_compute; reflexivity). lia. }
  pose proof (base62_decode_nonempty s v Hne Ev Hlt) as Hd.
  destruct (from_base62_decoded s v Hd) as [bs [_ E]].
  exists v, (mkTimeflake bs v). split; [exact Ev|]. split; [exact E|]. split; [|reflexivity].
  unfold from_str.
  rewrite (proj2 (Nat.eqb_neq (String.length s) 32)) by lia.
  rewrite (proj2 (Nat.leb_le (String.length s) 22)) by lia.
  rewrite Ha. exact E.
Qed.

Lemma from_base62_short_alnum_witness :
  exists v t, base62_decode_aux "Timeflake" 0 0 = Ok v /\ from_base62 "Timeflake" = Ok t /\
              from_str "Timeflake" = Ok t /\ int_value t = v.
Proof.
  apply from_base62_short_alnum; [discriminate | simpl; lia | reflexivity].
Defined.
